(** * find_roots: chunked root scanning over compressed vectors

    A shallow embedding of [examples/find_roots.c].  The program fills a
    super-chunk with evenly spaced [x] values, computes a cubic polynomial
    chunk by chunk into a second super-chunk, and scans the [y] chunks for
    sign changes, printing the [x] value at which each change is seen.

    - C [double] is IEEE-754 binary64: Rocq's primitive [float].
    - C [int] is a 32-bit two's complement integer, carried as [Z]; the
      arithmetic of [fill_buffer] wraps explicitly ([Int.wrap]).
    - [double x[CHUNKSIZE]] buffers are [list float], read and written by
      index.
    - [printf] and the calls into the Blosc2 library are recorded, in order,
      in a trace of events.

    Part I is the program, Part II the vocabulary of its properties, and
    Part III the proofs. *)

From Stdlib Require Import ZArith Floats Uint63 Lia.
From Stdlib Require Import Sorted.
From stdpp Require Import base tactics option list.

Local Open Scope Z_scope.

(** As in C, a decimal literal such as [1.35] denotes the nearest binary64
    value. *)
Set Warnings "-inexact-float".

(** * Part I: the program *)

(** ** C scalar types *)

Module Int.
(** 32-bit two's complement [int].  Overflow is undefined in C; here it
    wraps, and the properties below show where it cannot happen. *)
Definition min_signed : Z := - 2 ^ 31.
Definition max_signed : Z := 2 ^ 31 - 1.
Definition wrap (z : Z) : Z := (z + 2 ^ 31) mod 2 ^ 32 - 2 ^ 31.
Definition add (a b : Z) : Z := wrap (a + b).
Definition mul (a b : Z) : Z := wrap (a * b).
Definition in_range (z : Z) : Prop := min_signed <= z <= max_signed.
End Int.

Module Double.
(** Conversion [(double) n] of an [int]; exact, since |n| < 2^53. *)
Definition of_int (z : Z) : float :=
  if z <? 0 then PrimFloat.opp (PrimFloat.of_uint63 (Uint63.of_Z (- z)))
  else PrimFloat.of_uint63 (Uint63.of_Z z).

(** [a > b] and [a < b] on doubles, as C [int] results 0 or 1.  Both are 0
    when either operand is a NaN. *)
Definition gt (a b : float) : Z := Z.b2z (PrimFloat.ltb b a).
Definition lt (a b : float) : Z := Z.b2z (PrimFloat.ltb a b).
End Double.

#[global] Instance float_inhabited : Inhabited float := populate 0%float.

(** ** The size macros *)

Class Config := {
  NCHUNKS : Z;
  CHUNKSIZE : Z;
}.

(** [#define NCHUNKS 500] and [#define CHUNKSIZE (200 * 1000)]. *)
Definition source_config : Config :=
  {| NCHUNKS := 500; CHUNKSIZE := 200 * 1000 |}.

(** Smaller sizes, for worked examples: two chunks of four samples, and two
    chunks of one. *)
Definition example_config : Config := {| NCHUNKS := 2; CHUNKSIZE := 4 |}.
Definition tiny_config : Config := {| NCHUNKS := 2; CHUNKSIZE := 1 |}.

(** ** Loops *)

(** [for (i = i0; ...; i++) body], run [fuel] times. *)
Fixpoint for_from {St : Type} (fuel : nat) (i : Z) (body : Z -> St -> St)
    (s : St) : St :=
  match fuel with
  | O => s
  | S fuel' => for_from fuel' (i + 1) body (body i s)
  end.

(** [for (int i = 0; i < hi; i++) body]. *)
Definition for_lt {St : Type} (hi : Z) (body : Z -> St -> St) (s : St) : St :=
  for_from (Z.to_nat hi) 0 body s.

(** A loop body that may [return code;] out of the enclosing function. *)
Inductive outcome (St : Type) : Type :=
  | Continue (s : St)
  | Return (code : Z) (s : St).
Arguments Continue {St} s.
Arguments Return {St} code s.

Fixpoint for_from_ret {St : Type} (fuel : nat) (i : Z)
    (body : Z -> St -> outcome St) (s : St) : outcome St :=
  match fuel with
  | O => Continue s
  | S fuel' =>
      match body i s with
      | Continue s' => for_from_ret fuel' (i + 1) body s'
      | Return code s' => Return code s'
      end
  end.

Definition for_lt_ret {St : Type} (hi : Z) (body : Z -> St -> outcome St)
    (s : St) : outcome St :=
  for_from_ret (Z.to_nat hi) 0 body s.

(** ** Buffers *)

(** [b[i]] as an rvalue.  The program only reads inside the buffer; outside
    it, where C leaves the result undefined, this gives 0. *)
Definition load (b : list float) (i : Z) : float := b !!! Z.to_nat i.

(** [b[i] = v].  Outside the buffer, where C leaves the effect undefined,
    this does nothing. *)
Definition store (b : list float) (i : Z) (v : float) : list float :=
  <[Z.to_nat i := v]> b.

(** ** [fill_buffer], [process_data] and [find_root] *)

Section Kernels.
Context {cfg : Config}.

(** [incx] is [10. / (NCHUNKS * CHUNKSIZE)], the product taken in [int] and
    converted. *)
Definition incx : float :=
  (10 / Double.of_int (Int.mul NCHUNKS CHUNKSIZE))%float.

Definition fill_buffer (x : list float) (nchunk : Z) : list float :=
  for_lt CHUNKSIZE
    (fun i x =>
       store x i
         (incx * Double.of_int (Int.add (Int.mul nchunk CHUNKSIZE) i))%float)
    x.

(** The cubic of [process_data], with roots 1.35, 4.45 and 8.5. *)
Definition poly (xi : float) : float :=
  ((xi - 1.35) * (xi - 4.45) * (xi - 8.5))%float.

Definition process_data (x y : list float) : list float :=
  for_lt CHUNKSIZE (fun i y => let xi := load x i in store y i (poly xi)) y.

(** [(v > 0) - (v < 0)]. *)
Definition sign (v : float) : Z := Double.gt v 0 - Double.lt v 0.

(** The loop state of [find_root]: [pv], [last_root_idx] and what has been
    printed so far.  Each [printf("%.16g, ", x[i])] is recorded as the value
    printed together with the iteration [i] at which it ran. *)
Record scan := {
  pv : float;
  last_root_idx : Z;
  printed : list (Z * float);
}.

Definition find_root_step (x y : list float) (i : Z) (s : scan) : scan :=
  let yi := load y i in
  let s' :=
    if bool_decide (sign yi ≠ sign (pv s)) then
      if bool_decide (last_root_idx s ≠ i - 1) then
        {| pv := pv s; last_root_idx := i;
           printed := printed s ++ [(i, load x i)] |}
      else s
    else s in
  {| pv := yi; last_root_idx := last_root_idx s'; printed := printed s' |}.

Definition find_root_entry (prev_value : float) : scan :=
  {| pv := prev_value; last_root_idx := -1; printed := [] |}.

Definition find_root (x y : list float) (prev_value : float)
    : list (Z * float) :=
  printed
    (for_lt CHUNKSIZE (find_root_step x y) (find_root_entry prev_value)).

(** The values [find_root] prints, in order. *)
Definition roots (x y : list float) (prev_value : float) : list float :=
  (find_root x y prev_value).*2.
End Kernels.
(** ** The Blosc2 library, as the program uses it

    The super-chunk implementation is not part of this program; the driver
    is written against its three entry points.  [blosc2_decompress_chunk]
    returns the [int] it returns in C (negative on failure) and the new
    contents of the destination buffer. *)

Class Blosc2 := {
  blosc2_schunk : Type;
  blosc2_new_schunk : blosc2_schunk;
  blosc2_append_buffer : blosc2_schunk -> list float -> blosc2_schunk;
  blosc2_decompress_chunk :
    blosc2_schunk -> Z -> list float -> Z * list float;
}.

Inductive container := SC_X | SC_Y.

(** What a run does, in order: the buffers appended, the chunks read back
    with the value each read returned, the error message, and the roots
    printed.  The timing, throughput and compression lines the program also
    prints are left out, as is the release of the super-chunks at the end. *)
Inductive event :=
  | EvAppend (sc : container) (buf : list float)
  | EvDecompress (sc : container) (nchunk : Z) (dsize : Z)
  | EvDecompressionError (dsize : Z)
  | EvRoot (x : float).

Section Driver.
Context {cfg : Config} {lib : Blosc2}.

(** The variables of [compute_vectors] that outlive one loop iteration. *)
Record state := {
  buffer_x : list float;
  buffer_y : list float;
  sc_x : blosc2_schunk;
  sc_y : blosc2_schunk;
  prev_value : float;
  trace : list event;
}.

Definition set_buffer_x (b : list float) (st : state) : state :=
  {| buffer_x := b; buffer_y := buffer_y st; sc_x := sc_x st;
     sc_y := sc_y st; prev_value := prev_value st; trace := trace st |}.
Definition set_buffer_y (b : list float) (st : state) : state :=
  {| buffer_x := buffer_x st; buffer_y := b; sc_x := sc_x st;
     sc_y := sc_y st; prev_value := prev_value st; trace := trace st |}.
Definition set_sc_x (sc : blosc2_schunk) (st : state) : state :=
  {| buffer_x := buffer_x st; buffer_y := buffer_y st; sc_x := sc;
     sc_y := sc_y st; prev_value := prev_value st; trace := trace st |}.
Definition set_sc_y (sc : blosc2_schunk) (st : state) : state :=
  {| buffer_x := buffer_x st; buffer_y := buffer_y st; sc_x := sc_x st;
     sc_y := sc; prev_value := prev_value st; trace := trace st |}.
Definition set_prev_value (v : float) (st : state) : state :=
  {| buffer_x := buffer_x st; buffer_y := buffer_y st; sc_x := sc_x st;
     sc_y := sc_y st; prev_value := v; trace := trace st |}.
Definition emit (evs : list event) (st : state) : state :=
  {| buffer_x := buffer_x st; buffer_y := buffer_y st; sc_x := sc_x st;
     sc_y := sc_y st; prev_value := prev_value st;
     trace := trace st ++ evs |}.

(** The [static] buffers start zeroed, the super-chunks empty;
    [prev_value] is not yet assigned. *)
Definition initial : state :=
  {| buffer_x := replicate (Z.to_nat CHUNKSIZE) 0%float;
     buffer_y := replicate (Z.to_nat CHUNKSIZE) 0%float;
     sc_x := blosc2_new_schunk;
     sc_y := blosc2_new_schunk;
     prev_value := 0%float;
     trace := [] |}.

(** First loop: fill and append the [x] chunks. *)
Definition fill_body (nchunk : Z) (st : state) : state :=
  let bx := fill_buffer (buffer_x st) nchunk in
  emit [EvAppend SC_X bx]
    (set_sc_x (blosc2_append_buffer (sc_x st) bx) (set_buffer_x bx st)).

Definition fill_phase (st : state) : state := for_lt NCHUNKS fill_body st.

(** Second loop: read each [x] chunk back, compute, append the [y] chunk. *)
Definition transform_body (nchunk : Z) (st : state) : outcome state :=
  let '(dsize, bx) := blosc2_decompress_chunk (sc_x st) nchunk (buffer_x st) in
  let st := emit [EvDecompress SC_X nchunk dsize] (set_buffer_x bx st) in
  if dsize <? 0 then Return dsize (emit [EvDecompressionError dsize] st)
  else
    let by_ := process_data (buffer_x st) (buffer_y st) in
    Continue
      (emit [EvAppend SC_Y by_]
         (set_sc_y (blosc2_append_buffer (sc_y st) by_) (set_buffer_y by_ st))).

Definition transform_phase (st : state) : outcome state :=
  for_lt_ret NCHUNKS transform_body st.

(** Third loop: [prev_value = buffer_y[0];] and then, per chunk, read the
    [y] and [x] chunks back and scan them. *)
Definition scan_init (st : state) : state :=
  set_prev_value (load (buffer_y st) 0) st.

Definition scan_body (nchunk : Z) (st : state) : outcome state :=
  let '(dsize, by_) := blosc2_decompress_chunk (sc_y st) nchunk (buffer_y st) in
  let st := emit [EvDecompress SC_Y nchunk dsize] (set_buffer_y by_ st) in
  if dsize <? 0 then Return dsize (emit [EvDecompressionError dsize] st)
  else
    let '(dsize, bx) :=
      blosc2_decompress_chunk (sc_x st) nchunk (buffer_x st) in
    let st := emit [EvDecompress SC_X nchunk dsize] (set_buffer_x bx st) in
    if dsize <? 0 then Return dsize (emit [EvDecompressionError dsize] st)
    else
      let st :=
        emit (EvRoot <$> roots (buffer_x st) (buffer_y st) (prev_value st))
          st in
      Continue (set_prev_value (load (buffer_y st) (CHUNKSIZE - 1)) st).

Definition scan_phase (st : state) : outcome state :=
  for_lt_ret NCHUNKS scan_body (scan_init st).

(** [compute_vectors]: the value returned and the final state. *)
Definition compute_vectors : Z * state :=
  match transform_phase (fill_phase initial) with
  | Return code st => (code, st)
  | Continue st =>
      match scan_phase st with
      | Return code st => (code, st)
      | Continue st => (0, st)
      end
  end.
End Driver.

(** ** A reference super-chunk *)

(** Modelled from the spec: the chunked container behind [blosc2_schunk]
    (the library is not part of this program).  Appending stores the buffer
    as the next chunk; decompressing chunk [nchunk] writes that chunk into
    the destination and returns its size in bytes, or fails with a negative
    code, leaving the destination alone, when the index is out of range or
    the chunk is corrupt.  No filter is applied, so a stored chunk is read
    back unchanged.  [corrupt] says which chunk indices fail to decode. *)
Definition mem_decompress (corrupt : Z -> bool) (chunks : list (list float))
    (nchunk : Z) (dest : list float) : Z * list float :=
  if (nchunk <? 0) || corrupt nchunk then (-1, dest)
  else
    match chunks !! Z.to_nat nchunk with
    | Some c => (8 * Z.of_nat (length c), c)
    | None => (-1, dest)
    end.

(** Modelled from the spec: the three entry points over that container. *)
Definition mem_blosc2 (corrupt : Z -> bool) : Blosc2 :=
  {| blosc2_schunk := list (list float);
     blosc2_new_schunk := [];
     blosc2_append_buffer := fun chunks buf => chunks ++ [buf];
     blosc2_decompress_chunk := mem_decompress corrupt |}.

(** The container in which every chunk decodes. *)
Definition lossless : Blosc2 := mem_blosc2 (fun _ => false).

(** ** A sequence with its one sign change at a chunk boundary

    Eight samples, -1 four times and then 1 four times, stored as two
    chunks of four: the only sign change lies between the last sample of
    chunk 0 and the first sample of chunk 1.  The scan is entered with
    [buffer_y] holding the first chunk, so that it is seeded with the first
    sample of the sequence. *)
Definition boundary_x : list (list float) :=
  [[0; 1; 2; 3]; [4; 5; 6; 7]]%float.
Definition boundary_y : list (list float) :=
  [[-1; -1; -1; -1]; [1; 1; 1; 1]]%float.

Definition boundary_crossing : state (lib := lossless) :=
  {| buffer_x := [0; 1; 2; 3]%float;
     buffer_y := [-1; -1; -1; -1]%float;
     sc_x := boundary_x : blosc2_schunk (Blosc2 := lossless);
     sc_y := boundary_y : blosc2_schunk (Blosc2 := lossless);
     prev_value := 0%float;
     trace := [] |}.

(** ** The timing helpers

    [struct timespec] with its two fields, [time_t tv_sec] and
    [long tv_nsec], both 64-bit signed integers on the LP64 platforms the
    program is written for.  [blosc_set_timestamp], which reads the clock,
    has no counterpart here: a timestamp is any pair of field values. *)

Module Long.
(** 64-bit two's complement [long]; as for [Int], overflow wraps. *)
Definition wrap (z : Z) : Z := (z + 2 ^ 63) mod 2 ^ 64 - 2 ^ 63.
Definition sub (a b : Z) : Z := wrap (a - b).
End Long.

Module SizeT.
(** 64-bit unsigned [size_t]: arithmetic modulo 2^64, and the conversion
    of an [int] operand to it. *)
Definition wrap (z : Z) : Z := z mod 2 ^ 64.
Definition of_int (z : Z) : Z := wrap z.
Definition mul (a b : Z) : Z := wrap (a * b).
End SizeT.

(** Conversion [(double) n] of a 64-bit integer, rounded to nearest even. *)
Definition double_of_Z (z : Z) : float :=
  SF2Prim (SpecFloat.binary_normalize prec emax z 0 false).

Record timespec := {
  tv_sec : Z;
  tv_nsec : Z;
}.

Definition blosc_elapsed_usecs (start_time end_time : timespec) : float :=
  (1e6 * double_of_Z (Long.sub (tv_sec end_time) (tv_sec start_time)) +
   1e-3 * double_of_Z (Long.sub (tv_nsec end_time) (tv_nsec start_time)))%float.

Definition getseconds (last current : timespec) : float :=
  (1e-6 * blosc_elapsed_usecs last current)%float.

(** [niter] is an [int] and [nchunks] a [size_t]: the product is taken in
    [size_t]. *)
Definition get_usec_chunk (last current : timespec) (niter nchunks : Z)
    : float :=
  let elapsed_usecs := blosc_elapsed_usecs last current in
  (elapsed_usecs / double_of_Z (SizeT.mul (SizeT.of_int niter) nchunks))%float.

(** ** [main] *)

(** What [main] does around the run: it prints the version line, calls
    [blosc_init], runs [compute_vectors], whose result it drops, calls
    [blosc_destroy] and returns 0. *)
Inductive main_event :=
  | MainVersion
  | MainInit
  | MainRun (e : event)
  | MainDestroy.

Definition main {cfg : Config} {lib : Blosc2} : Z * list main_event :=
  let run := compute_vectors in
  (0, [MainVersion; MainInit] ++ (MainRun <$> trace run.2) ++ [MainDestroy]).

(** * Part II: the vocabulary of the properties *)

(** ** One call of [find_root] *)

(** [find_root] prints at iteration [i]. *)
Definition reported_at {cfg : Config} (x y : list float) (prev_value : float)
    (i : Z) : Prop :=
  i ∈ (find_root x y prev_value).*1.

(** The value [pv] holds on entry to iteration [i]. *)
Definition before (y : list float) (prev_value : float) (i : Z) : float :=
  if decide (i = 0) then prev_value else load y (i - 1).

(** The condition under which iteration [i] prints. *)
Definition fires (y : list float) (i : Z) (s : scan) : Prop :=
  sign (load y i) ≠ sign (pv s) /\ last_root_idx s ≠ i - 1.

(** What holds of the loop state on entry to iteration [k]. *)
Record scan_inv (x y : list float) (prev_value : float) (k : Z) (s : scan)
    : Prop := {
  inv_pv : pv s = before y prev_value k;
  inv_last_lt : last_root_idx s < k;
  inv_last_printed :
    last_root_idx s = -1 \/ last_root_idx s ∈ (printed s).*1;
  inv_printed_range :
    forall j, j ∈ (printed s).*1 -> 1 <= j <= last_root_idx s;
  inv_printed_iff :
    forall j, 1 <= j < k ->
      j ∈ (printed s).*1 <->
      sign (load y j) ≠ sign (before y prev_value j) /\
      j - 1 ∉ (printed s).*1;
  inv_printed_value :
    forall j v, (j, v) ∈ printed s -> v = load x j;
}.

(** ** Runs of [compute_vectors] *)

(** An event of a run that has not failed: any append or root, and a
    decompression that returned a non-negative size. *)
Definition ok_event (e : event) : Prop :=
  match e with
  | EvDecompress _ _ dsize => 0 <= dsize
  | EvDecompressionError _ => False
  | _ => True
  end.

(** A trace that ends in a failed decompression and its error message, with
    nothing failed before. *)
Definition aborted (code : Z) (t : list event) : Prop :=
  exists pre sc nchunk,
    t = pre ++ [EvDecompress sc nchunk code; EvDecompressionError code] /\
    Forall ok_event pre /\ code < 0.

(** The roots a run printed. *)
Definition reported_roots (t : list event) : list float :=
  omap (fun e => match e with EvRoot x => Some x | _ => None end) t.

(** Every [y] chunk the library hands back is of one sign throughout. *)
Definition one_sign_per_chunk {cfg : Config} {lib : Blosc2}
    (sc : blosc2_schunk) : Prop :=
  forall nchunk dest i, 1 <= i < CHUNKSIZE ->
    let y := (blosc2_decompress_chunk sc nchunk dest).2 in
    sign (load y i) = sign (load y (i - 1)).

(** What the transform loop leaves behind on entry to iteration [k]:
    [buffer_x] holds what decompressing [x] chunk [k - 1] gave, and
    [buffer_y] the polynomial of that. *)
Definition transformed {cfg : Config} {lib : Blosc2} (sc : blosc2_schunk)
    (k : Z) (st : state) : Prop :=
  sc_x st = sc /\
  length (buffer_y st) = Z.to_nat CHUNKSIZE /\
  (1 <= k ->
   (exists dest, buffer_x st = (blosc2_decompress_chunk sc (k - 1) dest).2) /\
   forall i, 0 <= i < CHUNKSIZE ->
     load (buffer_y st) i = poly (load (buffer_x st) i)).

(** ** The generated samples *)

(** The sample at global position [g]: [incx] times [g] as a double. *)
Definition sample_at {cfg : Config} (g : Z) : float :=
  (incx * Double.of_int g)%float.

(** The same with a given factor [c] and through the machine integer. *)
Definition scaled (c : float) (z : Z) : float :=
  (c * PrimFloat.of_uint63 (Uint63.of_Z z))%float.

(** A run over the [n] indices after [g]: each [c * g'] is compared with the
    value before it. *)
Fixpoint increasing_from (c : float) (n : nat) (g : int) (prev : float)
    : bool :=
  match n with
  | O => true
  | S n' =>
      let g' := (g + 1)%uint63 in
      let v := (c * PrimFloat.of_uint63 g')%float in
      if PrimFloat.ltb prev v then increasing_from c n' g' v else false
  end.

(** [m] consecutive blocks of [n] indices, starting at [g]. *)
Fixpoint increasing_blocks (c : float) (m n : nat) (g : int) : bool :=
  match m with
  | O => true
  | S m' =>
      if increasing_from c n g (c * PrimFloat.of_uint63 g)%float
      then increasing_blocks c m' n (g + Uint63.of_Z (Z.of_nat n))%uint63
      else false
  end.

(** ** Runs over the reference super-chunk *)

(** Chunk [n] of a super-chunk holds the generated samples of chunk [n]. *)
Definition holds_samples {cfg : Config} (chunks : list (list float)) : Prop :=
  forall n c, chunks !! n = Some c ->
    length c = Z.to_nat CHUNKSIZE /\
    forall i, 0 <= i < CHUNKSIZE ->
      load c i = sample_at (Z.of_nat n * CHUNKSIZE + i).

(** Chunk [n] of a super-chunk holds the polynomial of those samples. *)
Definition holds_poly {cfg : Config} (chunks : list (list float)) : Prop :=
  forall n c, chunks !! n = Some c ->
    forall i, 0 <= i < CHUNKSIZE ->
      load c i = poly (sample_at (Z.of_nat n * CHUNKSIZE + i)).

(** The state on entry to iteration [k] of the fill loop. *)
Definition filled {cfg : Config} (k : Z) (st : state (lib := lossless))
    : Prop :=
  length (buffer_x st) = Z.to_nat CHUNKSIZE /\
  length (buffer_y st) = Z.to_nat CHUNKSIZE /\
  Z.of_nat (length (sc_x st)) = k /\
  holds_samples (sc_x st) /\
  sc_y st = [].

(** The state on entry to iteration [k] of the transform loop. *)
Definition computed {cfg : Config} (sc : list (list float)) (k : Z)
    (st : state (lib := lossless)) : Prop :=
  sc_x st = sc /\
  length (buffer_y st) = Z.to_nat CHUNKSIZE /\
  Z.of_nat (length (sc_y st)) = k /\
  holds_poly (sc_y st) /\
  (1 <= k -> forall i, 0 <= i < CHUNKSIZE ->
     load (buffer_y st) i = poly (sample_at ((k - 1) * CHUNKSIZE + i))).

(** ** The order and the number of the reports of [find_root] *)

(** What holds, on entry to iteration [k], of the order in which
    [find_root] has printed. *)
Record scan_order (k : Z) (s : scan) : Prop := {
  ord_last_lt : last_root_idx s < k;
  ord_sorted : StronglySorted Z.lt (printed s).*1;
  ord_below : forall j, j ∈ (printed s).*1 -> j <= last_root_idx s;
  ord_count : 2 * Z.of_nat (length (printed s)) <= last_root_idx s + 1;
}.

(** Two runs of the loop of [find_root], over [y] and over [y'], that have
    printed the same so far. *)
Record scan_sim (y y' : list float) (k : Z) (s s' : scan) : Prop := {
  sim_last : last_root_idx s' = last_root_idx s;
  sim_printed : printed s' = printed s;
  sim_pv : 1 <= k -> pv s = load y (k - 1) /\ pv s' = load y' (k - 1);
  sim_first : k = 0 -> last_root_idx s = -1;
}.

(** ** The calls a run makes into the library *)

Inductive call :=
  | CallAppend (sc : container)
  | CallDecompress (sc : container) (nchunk : Z).

(** The calls recorded in a trace, in order. *)
Definition calls (t : list event) : list call :=
  omap (fun e =>
          match e with
          | EvAppend sc _ => Some (CallAppend sc)
          | EvDecompress sc nchunk _ => Some (CallDecompress sc nchunk)
          | _ => None
          end) t.

(** The calls of a run of [n] chunks in which nothing fails: [n] appends
    to the [x] super-chunk; then, per chunk, a read of [x] and an append
    to [y]; then, per chunk, a read of [y] and a read of [x]. *)
Definition transform_calls (n : Z) : list call :=
  seqZ 0 n ≫= (fun nchunk => [CallDecompress SC_X nchunk; CallAppend SC_Y]).
Definition scan_calls (n : Z) : list call :=
  seqZ 0 n ≫=
    (fun nchunk => [CallDecompress SC_Y nchunk; CallDecompress SC_X nchunk]).
Definition schedule (n : Z) : list call :=
  replicate (Z.to_nat n) (CallAppend SC_X) ++ transform_calls n ++ scan_calls n.

(** The buffers a run appended to the [x] super-chunk, in order. *)
Definition appended_x (t : list event) : list (list float) :=
  omap (fun e => match e with EvAppend SC_X buf => Some buf | _ => None end) t.

(** Every read in [cs] asks for a chunk index below the number of buffers
    appended to that super-chunk before it; [nx] and [ny] are the numbers
    appended to [x] and to [y] before [cs] starts. *)
Fixpoint reads_appended (nx ny : Z) (cs : list call) : Prop :=
  match cs with
  | [] => True
  | CallAppend SC_X :: cs => reads_appended (nx + 1) ny cs
  | CallAppend SC_Y :: cs => reads_appended nx (ny + 1) cs
  | CallDecompress SC_X nchunk :: cs =>
      0 <= nchunk < nx /\ reads_appended nx ny cs
  | CallDecompress SC_Y nchunk :: cs =>
      0 <= nchunk < ny /\ reads_appended nx ny cs
  end.

(** * Part III: proofs *)

(** ** Loop invariants *)

Section LoopInvariants.
Context {St : Type}.

(** An invariant [P i s], on entry to iteration [i], of a plain loop. *)
Lemma for_from_ind (body : Z -> St -> St) (P : Z -> St -> Prop) fuel i0 :
  (forall i s, i0 <= i < i0 + Z.of_nat fuel -> P i s -> P (i + 1) (body i s)) ->
  forall s, P i0 s -> P (i0 + Z.of_nat fuel) (for_from fuel i0 body s).
Proof.
  revert i0. induction fuel as [|fuel IH]; intros i0 Hbody s Hs; simpl.
  - by rewrite Z.add_0_r.
  - replace (i0 + Z.of_nat (S fuel)) with (i0 + 1 + Z.of_nat fuel) by lia.
    apply IH.
    + intros i s' Hi. apply Hbody. lia.
    + apply Hbody; [lia|done].
Qed.

(** The same for a loop that may return: [Q code s] holds if it does. *)
Lemma for_from_ret_ind (body : Z -> St -> outcome St)
    (P : Z -> St -> Prop) (Q : Z -> St -> Prop) fuel i0 :
  (forall i s, i0 <= i < i0 + Z.of_nat fuel -> P i s ->
     match body i s with
     | Continue s' => P (i + 1) s'
     | Return code s' => Q code s'
     end) ->
  forall s, P i0 s ->
    match for_from_ret fuel i0 body s with
    | Continue s' => P (i0 + Z.of_nat fuel) s'
    | Return code s' => Q code s'
    end.
Proof.
  revert i0. induction fuel as [|fuel IH]; intros i0 Hbody s Hs; simpl.
  - by rewrite Z.add_0_r.
  - pose proof (Hbody i0 s ltac:(lia) Hs) as Hstep.
    destruct (body i0 s) as [s'|code s']; [|done].
    replace (i0 + Z.of_nat (S fuel)) with (i0 + 1 + Z.of_nat fuel) by lia.
    apply IH; [|done]. intros i s'' Hi. apply Hbody. lia.
Qed.
End LoopInvariants.

(** ** Loops that write one buffer element per iteration *)

Section StoreLoops.
Context (f : Z -> float).

Lemma for_from_store_length n i0 b :
  length (for_from n i0 (fun i b => store b i (f i)) b) = length b.
Proof.
  revert i0 b. induction n as [|n IH]; intros i0 b; simpl; [done|].
  rewrite IH. unfold store. by rewrite length_insert.
Qed.

(** Slot [j] ends up holding [f j] when the loop passes over it, and keeps
    its old contents otherwise. *)
Lemma for_from_store_lookup n i0 b j :
  0 <= i0 ->
  for_from n i0 (fun i b => store b i (f i)) b !! j =
    if decide (Z.to_nat i0 <= j < Z.to_nat i0 + n)%nat
    then (fun _ => f (Z.of_nat j)) <$> b !! j
    else b !! j.
Proof.
  revert i0 b. induction n as [|n IH]; intros i0 b Hi0; simpl.
  - case_decide; [lia|done].
  - rewrite IH by lia. unfold store.
    replace (Z.to_nat (i0 + 1)) with (S (Z.to_nat i0)) by lia.
    destruct (decide (j = Z.to_nat i0)) as [->|Hne].
    + rewrite decide_False by lia. rewrite decide_True by lia.
      rewrite Z2Nat.id by lia.
      destruct (decide (Z.to_nat i0 < length b)%nat) as [Hlt|Hge].
      * rewrite list_lookup_insert_eq by done.
        apply lookup_lt_is_Some_2 in Hlt as [v ->]. done.
      * rewrite list_insert_ge by lia.
        rewrite (lookup_ge_None_2 b) by lia. done.
    + rewrite list_lookup_insert_ne by done.
      repeat case_decide; try lia; done.
Qed.

Lemma for_lt_store_lookup hi b i :
  length b = Z.to_nat hi -> 0 <= i < hi ->
  for_lt hi (fun i b => store b i (f i)) b !! Z.to_nat i = Some (f i).
Proof.
  intros Hlen Hi. unfold for_lt. rewrite for_from_store_lookup by lia.
  rewrite decide_True by lia.
  destruct (lookup_lt_is_Some_2 b (Z.to_nat i)) as [v ->]; [lia|].
  simpl. by rewrite Z2Nat.id by lia.
Qed.

Lemma for_lt_store_load hi b i :
  length b = Z.to_nat hi -> 0 <= i < hi ->
  load (for_lt hi (fun i b => store b i (f i)) b) i = f i.
Proof.
  intros Hlen Hi. unfold load.
  apply list_lookup_total_correct. by apply for_lt_store_lookup.
Qed.
End StoreLoops.

(** ** [int] arithmetic that stays in range does not wrap *)

Lemma wrap_in_range z : Int.in_range z -> Int.wrap z = z.
Proof.
  unfold Int.in_range, Int.min_signed, Int.max_signed, Int.wrap. intros H.
  rewrite Z.mod_small; lia.
Qed.

(** ** The order on doubles

    [PrimFloat.ltb] is specified through [SFcompare] on the unpacked
    sign, mantissa and exponent. *)

Module FloatOrder.
Import SpecFloat.

Lemma SFcompare_Lt_trans a b c :
  SFcompare a b = Some Lt -> SFcompare b c = Some Lt -> SFcompare a c = Some Lt.
Proof.
  destruct a as [[]|[]| |[] ma ea], b as [[]|[]| |[] mb eb],
    c as [[]|[]| |[] mc ec]; simpl; try congruence;
    intros Hab Hbc; f_equal; injection Hab as Hab; injection Hbc as Hbc.
  all: change (Pos.compare_cont Eq ma mb) with (Pos.compare ma mb) in *.
  all: change (Pos.compare_cont Eq mb mc) with (Pos.compare mb mc) in *.
  all: change (Pos.compare_cont Eq ma mc) with (Pos.compare ma mc) in *.
  all: destruct (Z.compare_spec ea eb), (Z.compare_spec eb ec),
      (Z.compare_spec ea ec); subst; try lia; try congruence.
  all: destruct (Pos.compare_spec ma mb), (Pos.compare_spec mb mc),
      (Pos.compare_spec ma mc); subst; simpl in *; try lia; try congruence.
Qed.

Lemma ltb_trans a b c :
  PrimFloat.ltb a b = true -> PrimFloat.ltb b c = true ->
  PrimFloat.ltb a c = true.
Proof.
  rewrite !FloatAxioms.ltb_spec. unfold SFltb.
  destruct (SFcompare (Prim2SF a) (Prim2SF b)) as [[]|] eqn:Hab; try done.
  destruct (SFcompare (Prim2SF b) (Prim2SF c)) as [[]|] eqn:Hbc; try done.
  by rewrite (SFcompare_Lt_trans _ _ _ Hab Hbc).
Qed.

Lemma ltb_leb a b : PrimFloat.ltb a b = true -> PrimFloat.leb a b = true.
Proof.
  rewrite FloatAxioms.ltb_spec, FloatAxioms.leb_spec. unfold SFltb, SFleb.
  by destruct (SFcompare (Prim2SF a) (Prim2SF b)) as [[]|].
Qed.

(** Against zero: at most one of [0 < v], [v < 0] and [v == 0] holds. *)
Lemma compare_zero v :
  match SFcompare (Prim2SF v) (Prim2SF 0) with
  | Some Lt => SFcompare (Prim2SF 0) (Prim2SF v) = Some Gt
  | Some Gt => SFcompare (Prim2SF 0) (Prim2SF v) = Some Lt
  | Some Eq => SFcompare (Prim2SF 0) (Prim2SF v) = Some Eq
  | None => SFcompare (Prim2SF 0) (Prim2SF v) = None
  end.
Proof.
  change (Prim2SF 0) with (S754_zero false).
  by destruct (Prim2SF v) as [[]|[]| |[] m e].
Qed.
End FloatOrder.

(** ** The sign classes of the scanner *)

Section Sign.
Import SpecFloat FloatOrder.

Lemma sign_cases v : sign v = -1 \/ sign v = 0 \/ sign v = 1.
Proof.
  unfold sign, Double.gt, Double.lt. rewrite !FloatAxioms.ltb_spec.
  unfold SFltb. pose proof (compare_zero v) as H.
  destruct (SFcompare (Prim2SF v) (Prim2SF 0)) as [[]|]; rewrite H; simpl; lia.
Qed.

Lemma sign_zero z : PrimFloat.eqb z 0 = true -> sign z = 0.
Proof.
  unfold sign, Double.gt, Double.lt.
  rewrite FloatAxioms.eqb_spec, !FloatAxioms.ltb_spec. unfold SFeqb, SFltb.
  pose proof (compare_zero z) as H.
  by destruct (SFcompare (Prim2SF z) (Prim2SF 0)) as [[]|]; rewrite H.
Qed.

Lemma sign_pos v : PrimFloat.ltb 0 v = true -> sign v = 1.
Proof.
  unfold sign, Double.gt, Double.lt. rewrite !FloatAxioms.ltb_spec.
  unfold SFltb. pose proof (compare_zero v) as H.
  by destruct (SFcompare (Prim2SF v) (Prim2SF 0)) as [[]|]; rewrite H.
Qed.

Lemma sign_neg v : PrimFloat.ltb v 0 = true -> sign v = -1.
Proof.
  unfold sign, Double.gt, Double.lt. rewrite !FloatAxioms.ltb_spec.
  unfold SFltb. pose proof (compare_zero v) as H.
  by destruct (SFcompare (Prim2SF v) (Prim2SF 0)) as [[]|]; rewrite H.
Qed.

(** A NaN compares neither above nor below zero, so it shares the middle
    class with the zeros. *)
Lemma sign_nan : sign PrimFloat.nan = 0.
Proof. reflexivity. Qed.

(** C4.  [(v > 0) - (v < 0)] takes one of the three values -1, 0 and 1 on
    every double [w]; a sample [z] that equals zero is in class 0, a sample
    [v] that is positive or negative is in class 1 or -1, so the test
    [sign != sign] of the scanner succeeds between a zero and a positive or
    negative neighbour, whichever of the two comes first. *)
Theorem sign_zero_is_a_class_apart (w z v : float) :
  PrimFloat.eqb z 0 = true ->
  PrimFloat.ltb 0 v = true \/ PrimFloat.ltb v 0 = true ->
  (sign w = -1 \/ sign w = 0 \/ sign w = 1) /\
  sign z = 0 /\
  (PrimFloat.ltb 0 v = true -> sign v = 1) /\
  (PrimFloat.ltb v 0 = true -> sign v = -1) /\
  bool_decide (sign z ≠ sign v) = true /\
  bool_decide (sign v ≠ sign z) = true.
Proof.
  intros Hz Hv. split; [apply sign_cases|].
  rewrite (sign_zero z Hz). split; [done|].
  split; [apply sign_pos|]. split; [apply sign_neg|].
  destruct Hv as [Hv|Hv];
    [rewrite (sign_pos v Hv)|rewrite (sign_neg v Hv)]; done.
Qed.

Lemma sign_zero_is_a_class_apart_witness :
  (sign 8.5 = -1 \/ sign 8.5 = 0 \/ sign 8.5 = 1) /\
  sign (-0) = 0 /\
  (PrimFloat.ltb 0 (-2.5) = true -> sign (-2.5) = 1) /\
  (PrimFloat.ltb (-2.5) 0 = true -> sign (-2.5) = -1) /\
  bool_decide (sign (-0) ≠ sign (-2.5)) = true /\
  bool_decide (sign (-2.5) ≠ sign (-0)) = true.
Proof.
  apply (sign_zero_is_a_class_apart 8.5 (-0) (-2.5)).
  - reflexivity.
  - right. reflexivity.
Defined.
End Sign.

(** ** The transform stage *)

Section Transform.
Context {cfg : Config}.

Lemma process_data_length x y : length (process_data x y) = length y.
Proof.
  unfold process_data, for_lt.
  apply (for_from_store_length (fun i => poly (load x i))).
Qed.

Lemma process_data_load x y i :
  length y = Z.to_nat CHUNKSIZE -> 0 <= i < CHUNKSIZE ->
  load (process_data x y) i = poly (load x i).
Proof.
  intros. by apply (for_lt_store_load (fun i => poly (load x i))).
Qed.

(** C5.  For an input chunk [x] and an output buffer [y] of [CHUNKSIZE]
    elements, [process_data] leaves in every slot [i] of the output the
    value [(x[i] - 1.35) * (x[i] - 4.45) * (x[i] - 8.5)]; the slot takes the
    same value for any other input chunk that agrees with [x] at [i], and
    whatever the output buffer held before. *)
Theorem process_data_elementwise (x y : list float) (i : Z) :
  length x = Z.to_nat CHUNKSIZE ->
  length y = Z.to_nat CHUNKSIZE ->
  0 <= i < CHUNKSIZE ->
  length (process_data x y) = Z.to_nat CHUNKSIZE /\
  process_data x y !! Z.to_nat i =
    Some ((load x i - 1.35) * (load x i - 4.45) * (load x i - 8.5))%float /\
  (forall x' y' : list float,
     length y' = Z.to_nat CHUNKSIZE -> load x' i = load x i ->
     load (process_data x' y') i = load (process_data x y) i).
Proof.
  intros _ Hy Hi. split; [by rewrite process_data_length|]. split.
  - apply (for_lt_store_lookup (fun i => poly (load x i))); done.
  - intros x' y' Hy' Hx'. rewrite !process_data_load by done.
    by rewrite Hx'.
Qed.
End Transform.

Lemma process_data_elementwise_witness :
  length (process_data (cfg := example_config)
            [0; 1; 2; 3]%float [0; 0; 0; 0]%float) = Z.to_nat 4 /\
  process_data (cfg := example_config)
    [0; 1; 2; 3]%float [0; 0; 0; 0]%float !! Z.to_nat 2 =
    Some ((load [0; 1; 2; 3]%float 2 - 1.35) *
          (load [0; 1; 2; 3]%float 2 - 4.45) *
          (load [0; 1; 2; 3]%float 2 - 8.5))%float /\
  (forall x' y' : list float,
     length y' = Z.to_nat 4 ->
     load x' 2 = load [0; 1; 2; 3]%float 2 ->
     load (process_data (cfg := example_config) x' y') 2 =
     load (process_data (cfg := example_config)
             [0; 1; 2; 3]%float [0; 0; 0; 0]%float) 2).
Proof.
  apply (process_data_elementwise (cfg := example_config)
           [0; 1; 2; 3]%float [0; 0; 0; 0]%float 2).
  - reflexivity.
  - reflexivity.
  - simpl. lia.
Defined.

(** ** The generator *)

Section Generator.
Context {cfg : Config}.
Hypothesis total_in_range : Int.in_range (NCHUNKS * CHUNKSIZE).

Lemma global_index_bounds nchunk i :
  0 <= nchunk < NCHUNKS -> 0 <= i < CHUNKSIZE ->
  0 <= nchunk * CHUNKSIZE /\
  0 <= nchunk * CHUNKSIZE + i < NCHUNKS * CHUNKSIZE.
Proof. intros Hn Hi. nia. Qed.

Lemma global_index_no_wrap nchunk i :
  0 <= nchunk < NCHUNKS -> 0 <= i < CHUNKSIZE ->
  Int.add (Int.mul nchunk CHUNKSIZE) i = nchunk * CHUNKSIZE + i.
Proof.
  intros Hn Hi. pose proof (global_index_bounds _ _ Hn Hi) as [H0 H1].
  unfold Int.add, Int.mul. unfold Int.in_range, Int.min_signed in *.
  rewrite (wrap_in_range (nchunk * CHUNKSIZE)).
  - apply wrap_in_range. unfold Int.in_range, Int.min_signed. lia.
  - unfold Int.in_range, Int.min_signed. nia.
Qed.

Lemma fill_buffer_length x nchunk : length (fill_buffer x nchunk) = length x.
Proof.
  unfold fill_buffer, for_lt.
  apply (for_from_store_length
    (fun i =>
       (incx * Double.of_int (Int.add (Int.mul nchunk CHUNKSIZE) i))%float)).
Qed.

Lemma fill_buffer_lookup x nchunk i :
  length x = Z.to_nat CHUNKSIZE ->
  0 <= nchunk < NCHUNKS -> 0 <= i < CHUNKSIZE ->
  fill_buffer x nchunk !! Z.to_nat i =
    Some (sample_at (nchunk * CHUNKSIZE + i)).
Proof.
  intros Hlen Hn Hi. unfold fill_buffer.
  rewrite (for_lt_store_lookup
    (fun i =>
       (incx * Double.of_int (Int.add (Int.mul nchunk CHUNKSIZE) i))%float))
    by done.
  unfold sample_at. by rewrite global_index_no_wrap.
Qed.

Lemma fill_buffer_load x nchunk i :
  length x = Z.to_nat CHUNKSIZE ->
  0 <= nchunk < NCHUNKS -> 0 <= i < CHUNKSIZE ->
  load (fill_buffer x nchunk) i = sample_at (nchunk * CHUNKSIZE + i).
Proof.
  intros. unfold load. apply list_lookup_total_correct.
  by apply fill_buffer_lookup.
Qed.
End Generator.

Lemma source_total_in_range :
  Int.in_range (@NCHUNKS source_config * @CHUNKSIZE source_config).
Proof. by vm_compute. Qed.

(** C6.  With [NCHUNKS = 500] and [CHUNKSIZE = 200000], for every chunk
    index [nchunk] in [0..NCHUNKS-1] and every element index [i] in
    [0..CHUNKSIZE-1], [fill_buffer] leaves in [x[i]] the product of [incx]
    and the global index [nchunk * CHUNKSIZE + i] (an exact integer: the
    [int] arithmetic does not wrap), where [incx] is 10 divided by
    [NCHUNKS * CHUNKSIZE]; the value does not depend on what the buffer held
    before. *)
Theorem fill_buffer_scaled_global_index (x : list float) (nchunk i : Z) :
  length x = Z.to_nat 200000 ->
  0 <= nchunk < 500 ->
  0 <= i < 200000 ->
  @NCHUNKS source_config = 500 /\
  @CHUNKSIZE source_config = 200000 /\
  incx (cfg := source_config) = (10 / Double.of_int (500 * 200000))%float /\
  fill_buffer (cfg := source_config) x nchunk !! Z.to_nat i =
    Some (incx (cfg := source_config) *
          Double.of_int (nchunk * 200000 + i))%float.
Proof.
  intros Hlen Hn Hi. split; [done|]. split; [done|]. split; [done|].
  apply (fill_buffer_lookup (cfg := source_config) source_total_in_range);
    done.
Qed.

Lemma fill_buffer_scaled_global_index_witness :
  @NCHUNKS source_config = 500 /\
  @CHUNKSIZE source_config = 200000 /\
  incx (cfg := source_config) = (10 / Double.of_int (500 * 200000))%float /\
  fill_buffer (cfg := source_config) (replicate (Z.to_nat 200000) 0%float) 425
    !! Z.to_nat 0 =
    Some (incx (cfg := source_config) * Double.of_int (425 * 200000 + 0))%float.
Proof.
  apply (fill_buffer_scaled_global_index
           (replicate (Z.to_nat 200000) 0%float) 425 0).
  - apply length_replicate.
  - lia.
  - lia.
Defined.

(** ** The generated samples increase

    Rounding could in principle make two neighbouring products [incx * g]
    collide; that it does not, for any of the [NCHUNKS * CHUNKSIZE] global
    indices, is checked by running over them, chunk by chunk. *)

Section Increasing.
Context (c : float).

Lemma of_Z_add a b :
  (Uint63.of_Z a + Uint63.of_Z b)%uint63 = Uint63.of_Z (a + b).
Proof.
  apply Uint63.to_Z_inj.
  rewrite Uint63.add_spec, !Uint63.of_Z_spec. by rewrite <- Z.add_mod.
Qed.

Lemma increasing_from_sound n z :
  increasing_from c n (Uint63.of_Z z) (scaled c z) = true ->
  forall k, 0 <= k < Z.of_nat n ->
    PrimFloat.ltb (scaled c (z + k)) (scaled c (z + k + 1)) = true.
Proof.
  revert z. induction n as [|n IH]; intros z Hchk k Hk; [lia|].
  simpl in Hchk. change 1%uint63 with (Uint63.of_Z 1) in Hchk.
  rewrite of_Z_add in Hchk. fold (scaled c (z + 1)) in Hchk.
  destruct (PrimFloat.ltb (scaled c z) (scaled c (z + 1))) eqn:Hlt; [|done].
  destruct (decide (k = 0)) as [->|Hne].
  - by rewrite Z.add_0_r.
  - specialize (IH (z + 1) Hchk (k - 1)).
    replace (z + 1 + (k - 1)) with (z + k) in IH by lia.
    apply IH. lia.
Qed.

Lemma increasing_blocks_sound m n z :
  increasing_blocks c m n (Uint63.of_Z z) = true ->
  forall k, 0 <= k < Z.of_nat m * Z.of_nat n ->
    PrimFloat.ltb (scaled c (z + k)) (scaled c (z + k + 1)) = true.
Proof.
  revert z. induction m as [|m IH]; intros z Hchk k Hk; [lia|].
  simpl in Hchk. fold (scaled c z) in Hchk.
  destruct (increasing_from c n (Uint63.of_Z z) (scaled c z)) eqn:Hblock;
    [|done].
  rewrite of_Z_add in Hchk.
  destruct (decide (k < Z.of_nat n)) as [Hlt|Hge].
  - apply (increasing_from_sound n z Hblock). lia.
  - specialize (IH (z + Z.of_nat n) Hchk (k - Z.of_nat n)).
    replace (z + Z.of_nat n + (k - Z.of_nat n)) with (z + k) in IH by lia.
    apply IH. lia.
Qed.

(** Neighbours in order give any two in order. *)
Lemma scaled_increasing lo hi :
  (forall k, lo <= k < hi ->
     PrimFloat.ltb (scaled c k) (scaled c (k + 1)) = true) ->
  forall g g', lo <= g -> g < g' -> g' <= hi ->
    PrimFloat.ltb (scaled c g) (scaled c g') = true.
Proof.
  intros Hadj g g' Hlo Hlt Hhi.
  replace g' with (g + 1 + Z.of_nat (Z.to_nat (g' - g - 1))) by lia.
  assert (Hb : g + 1 + Z.of_nat (Z.to_nat (g' - g - 1)) <= hi) by lia.
  revert Hb. generalize (Z.to_nat (g' - g - 1)) as d. clear g' Hlt Hhi.
  induction d as [|d IH]; intros Hb.
  - rewrite Z.add_0_r. apply Hadj. lia.
  - apply (FloatOrder.ltb_trans _ (scaled c (g + 1 + Z.of_nat d))).
    + apply IH. lia.
    + replace (g + 1 + Z.of_nat (S d)) with (g + 1 + Z.of_nat d + 1) by lia.
      apply Hadj. lia.
Qed.
End Increasing.

Lemma sample_at_scaled {cfg : Config} g : 0 <= g -> sample_at g = scaled incx g.
Proof.
  intros Hg. unfold sample_at, scaled, Double.of_int.
  by rewrite (proj2 (Z.ltb_ge g 0)).
Qed.

(** The run over all indices of the program. *)
Lemma source_samples_checked :
  increasing_blocks (incx (cfg := source_config))
    (Z.to_nat 500) (Z.to_nat 200000) (Uint63.of_Z 0) = true.
Proof. vm_compute. reflexivity. Qed.

Lemma source_samples_adjacent g :
  0 <= g < 100000000 ->
  PrimFloat.ltb (sample_at (cfg := source_config) g)
    (sample_at (cfg := source_config) (g + 1)) = true.
Proof.
  intros Hg. rewrite !sample_at_scaled by lia.
  apply (increasing_blocks_sound _ _ _ 0 source_samples_checked g). lia.
Qed.

Lemma source_samples_increasing g g' :
  0 <= g -> g < g' -> g' <= 100000000 ->
  PrimFloat.ltb (sample_at (cfg := source_config) g)
    (sample_at (cfg := source_config) g') = true.
Proof.
  intros H0 Hlt Hhi. rewrite !sample_at_scaled by lia.
  apply (scaled_increasing _ 0 100000000); try done.
  intros k Hk. rewrite <- !sample_at_scaled by lia.
  by apply source_samples_adjacent.
Qed.

Lemma source_samples_bounds g :
  0 <= g < 100000000 ->
  PrimFloat.leb 0 (sample_at (cfg := source_config) g) = true /\
  PrimFloat.ltb (sample_at (cfg := source_config) g) 10 = true.
Proof.
  intros Hg. split.
  - destruct (decide (g = 0)) as [->|Hne]; [done|].
    apply FloatOrder.ltb_leb.
    change 0%float with (sample_at (cfg := source_config) 0).
    apply source_samples_increasing; lia.
  - destruct (decide (g = 99999999)) as [->|Hne]; [done|].
    apply (FloatOrder.ltb_trans _ (sample_at (cfg := source_config) 99999999));
      [|done].
    apply source_samples_increasing; lia.
Qed.

(** C10.  Take two slots of the generated [x] vector, slot [i] of chunk
    [nchunk] and slot [i'] of chunk [nchunk'], the first at the smaller
    global index.  Then what [fill_buffer] writes into the first is
    strictly below what it writes into the second; both values are at
    least 0 and strictly below 10; and slot 0 of chunk 0 holds exactly 0. *)
Theorem generated_samples_strictly_increasing
    (x x' : list float) (nchunk i nchunk' i' : Z) :
  length x = Z.to_nat 200000 ->
  length x' = Z.to_nat 200000 ->
  0 <= nchunk < 500 -> 0 <= i < 200000 ->
  0 <= nchunk' < 500 -> 0 <= i' < 200000 ->
  nchunk * 200000 + i < nchunk' * 200000 + i' ->
  let v := load (fill_buffer (cfg := source_config) x nchunk) i in
  let v' := load (fill_buffer (cfg := source_config) x' nchunk') i' in
  PrimFloat.ltb v v' = true /\
  PrimFloat.leb 0 v = true /\ PrimFloat.ltb v 10 = true /\
  PrimFloat.leb 0 v' = true /\ PrimFloat.ltb v' 10 = true /\
  load (fill_buffer (cfg := source_config) x 0) 0 = 0%float.
Proof.
  intros Hx Hx' Hn Hi Hn' Hi' Hlt v v'. subst v v'.
  rewrite !(fill_buffer_load (cfg := source_config) source_total_in_range)
    by done.
  change (@CHUNKSIZE source_config) with 200000.
  split; [apply source_samples_increasing; lia|].
  split; [apply source_samples_bounds; lia|].
  split; [apply source_samples_bounds; lia|].
  split; [apply source_samples_bounds; lia|].
  split; [apply source_samples_bounds; lia|].
  done.
Qed.

Lemma generated_samples_strictly_increasing_witness :
  let x := replicate (Z.to_nat 200000) 0%float in
  let v := load (fill_buffer (cfg := source_config) x 424) 199999 in
  let v' := load (fill_buffer (cfg := source_config) x 425) 0 in
  PrimFloat.ltb v v' = true /\
  PrimFloat.leb 0 v = true /\ PrimFloat.ltb v 10 = true /\
  PrimFloat.leb 0 v' = true /\ PrimFloat.ltb v' 10 = true /\
  load (fill_buffer (cfg := source_config) x 0) 0 = 0%float.
Proof.
  intros x.
  apply (generated_samples_strictly_increasing x x 424 199999 425 0).
  - apply length_replicate.
  - apply length_replicate.
  - lia.
  - lia.
  - lia.
  - lia.
  - lia.
Defined.

(** ** One call of [find_root] *)

Section FindRoot.
Context {cfg : Config} (x y : list float) (prev_value : float).

Lemma find_root_step_fires i s :
  fires y i s ->
  find_root_step x y i s =
    {| pv := load y i; last_root_idx := i;
       printed := printed s ++ [(i, load x i)] |}.
Proof.
  intros [H1 H2]. unfold find_root_step.
  by rewrite !bool_decide_eq_true_2.
Qed.

Lemma find_root_step_quiet i s :
  ¬ fires y i s ->
  find_root_step x y i s =
    {| pv := load y i; last_root_idx := last_root_idx s;
       printed := printed s |}.
Proof.
  intros H. unfold find_root_step, fires in *.
  destruct (bool_decide_reflect (sign (load y i) ≠ sign (pv s))); [|done].
  destruct (bool_decide_reflect (last_root_idx s ≠ i - 1)); [|done].
  by destruct H.
Qed.

Lemma scan_inv_initial :
  scan_inv x y prev_value 0 (find_root_entry prev_value).
Proof.
  split; simpl; try done; try lia.
  - intros j Hj. by apply elem_of_nil in Hj.
  - intros j v Hj. by apply elem_of_nil in Hj.
Qed.

Lemma scan_inv_step k s :
  0 <= k -> scan_inv x y prev_value k s ->
  scan_inv x y prev_value (k + 1) (find_root_step x y k s).
Proof.
  intros Hk [Hpv Hlt Hlast Hrange Hiff Hval].
  assert (Hprev : 1 <= k ->
            k - 1 ∈ (printed s).*1 <-> last_root_idx s = k - 1).
  { intros Hk1. split.
    - intros Hin. apply Hrange in Hin. lia.
    - intros Heq. destruct Hlast as [Hl|Hl]; [lia|by rewrite <- Heq]. }
  assert (Hbefore : before y prev_value (k + 1) = load y k).
  { unfold before. rewrite decide_False by lia. f_equal. lia. }
  destruct (decide (fires y k s)) as [Hf|Hf].
  - rewrite find_root_step_fires by done. destruct Hf as [Hsign Hguard].
    assert (1 <= k).
    { destruct (decide (k = 0)) as [->|]; [|lia].
      destruct Hlast as [Hl|Hl]; [lia|]. apply Hrange in Hl. lia. }
    split; simpl; rewrite ?fmap_app; simpl.
    + done.
    + lia.
    + right. apply elem_of_app. right. apply list_elem_of_singleton. done.
    + intros j [Hj|Hj]%elem_of_app.
      * apply Hrange in Hj. lia.
      * apply list_elem_of_singleton in Hj. lia.
    + intros j Hj. rewrite !elem_of_app, !list_elem_of_singleton.
      destruct (decide (j = k)) as [->|Hne].
      * rewrite Hpv in Hsign. split; [|by right].
        intros _. split; [done|]. intros [Hin|?]; [|lia].
        apply Hprev in Hin; done.
      * rewrite Hiff by lia. split.
        -- intros [[Hs Hn]|?]; [|lia]. split; [done|].
           intros [?|?]; [done|lia].
        -- intros [Hs Hn]. left. split; [done|]. intros ?. apply Hn. by left.
    + intros j v [Hj|Hj]%elem_of_app; [by apply Hval|].
      apply list_elem_of_singleton in Hj. by injection Hj as -> ->.
  - rewrite find_root_step_quiet by done.
    split; simpl.
    + done.
    + lia.
    + done.
    + done.
    + intros j Hj. destruct (decide (j = k)) as [->|Hne]; [|apply Hiff; lia].
      split.
      * intros Hin. apply Hrange in Hin. lia.
      * intros [Hs Hn]. exfalso. apply Hf. split; [by rewrite Hpv|].
        intros Heq. apply Hn, Hprev; [lia|done].
    + done.
Qed.

Lemma scan_inv_for_from n k s :
  0 <= k -> scan_inv x y prev_value k s ->
  scan_inv x y prev_value (k + Z.of_nat n)
    (for_from n k (find_root_step x y) s).
Proof.
  revert k s. induction n as [|n IH]; intros k s Hk Hinv; simpl.
  - by rewrite Z.add_0_r.
  - replace (k + Z.of_nat (S n)) with (k + 1 + Z.of_nat n) by lia.
    apply IH; [lia|]. by apply scan_inv_step.
Qed.

Lemma find_root_final_inv :
  scan_inv x y prev_value (Z.of_nat (Z.to_nat CHUNKSIZE))
    (for_lt CHUNKSIZE (find_root_step x y) (find_root_entry prev_value)).
Proof.
  unfold for_lt.
  apply (scan_inv_for_from _ 0); [done|apply scan_inv_initial].
Qed.

Lemma reported_at_range i : reported_at x y prev_value i -> 1 <= i < CHUNKSIZE.
Proof.
  unfold reported_at, find_root.
  intros Hi. pose proof find_root_final_inv as [_ Hlt _ Hrange _ _].
  apply Hrange in Hi. lia.
Qed.

(** From the second sample on, a sample is reported exactly when its sign
    differs from that of the sample before it and that sample was not
    itself reported. *)
Lemma reported_at_iff i :
  1 <= i < CHUNKSIZE ->
  reported_at x y prev_value i <->
  sign (load y i) ≠ sign (load y (i - 1)) /\
  ¬ reported_at x y prev_value (i - 1).
Proof.
  intros Hi. unfold reported_at, find_root.
  pose proof find_root_final_inv as [_ _ _ _ Hiff _].
  rewrite Hiff by lia. unfold before. by rewrite decide_False by lia.
Qed.

Lemma find_root_value i v : (i, v) ∈ find_root x y prev_value -> v = load x i.
Proof.
  unfold find_root.
  pose proof find_root_final_inv as [_ _ _ _ _ Hval]. apply Hval.
Qed.

(** C8.  Whatever the buffers and the carried value, [find_root] prints
    nothing at index 0 of the chunk, also when the sign of [y[0]] differs
    from the sign of [prev_value]: [last_root_idx] starts at -1, which is
    [i - 1] at [i = 0]. *)
Theorem find_root_never_reports_first_sample :
  ¬ reported_at x y prev_value 0 /\
  find_root_step x y 0 (find_root_entry prev_value) =
    {| pv := load y 0; last_root_idx := -1; printed := [] |}.
Proof.
  split.
  - intros H%reported_at_range. lia.
  - apply find_root_step_quiet. unfold fires. simpl. intros [_ H]. done.
Qed.

(** C9.  If [find_root] prints at index [i], it does not print at index
    [i + 1]. *)
Theorem find_root_no_consecutive_reports (i : Z) :
  reported_at x y prev_value i -> ¬ reported_at x y prev_value (i + 1).
Proof.
  intros Hi Hnext. pose proof (reported_at_range _ Hnext) as Hr.
  apply reported_at_iff in Hnext as [_ Hn]; [|lia].
  apply Hn. by replace (i + 1 - 1) with i by lia.
Qed.
End FindRoot.

Lemma find_root_no_consecutive_reports_witness :
  reported_at (cfg := example_config)
    [0; 1; 2; 3]%float [-1; -1; 1; 1]%float (-1) 2 /\
  ¬ reported_at (cfg := example_config)
      [0; 1; 2; 3]%float [-1; -1; 1; 1]%float (-1) (2 + 1).
Proof.
  assert (H : reported_at (cfg := example_config)
                [0; 1; 2; 3]%float [-1; -1; 1; 1]%float (-1) 2).
  { unfold reported_at. vm_compute. apply list_elem_of_here. }
  split; [exact H|].
  exact (find_root_no_consecutive_reports (cfg := example_config)
           [0; 1; 2; 3]%float [-1; -1; 1; 1]%float (-1) 2 H).
Defined.

(** The worked example: one root, printed as [x = 2], at index 2. *)
Lemma find_root_example :
  find_root (cfg := example_config)
    [0; 1; 2; 3]%float [-1; -1; 1; 1]%float (-1) = [(2, 2%float)].
Proof. reflexivity. Qed.

(** A chunk whose samples all have one sign prints nothing, whatever the
    carried value is. *)
Lemma find_root_constant_sign {cfg : Config} (x y : list float)
    (prev_value : float) :
  (forall i, 1 <= i < CHUNKSIZE -> sign (load y i) = sign (load y (i - 1))) ->
  find_root x y prev_value = [].
Proof.
  intros Hsame.
  destruct (find_root x y prev_value) as [|[i v] l] eqn:Hfr; [done|].
  assert (Hi : reported_at x y prev_value i).
  { unfold reported_at. rewrite Hfr. simpl. apply list_elem_of_here. }
  pose proof (reported_at_range _ _ _ _ Hi) as Hr.
  apply reported_at_iff in Hi as [Hne _]; [|done].
  by rewrite Hsame in Hne.
Qed.

(** So it is at the chunk length of the program: a chunk of 200000 samples
    equal to 1 prints nothing, also when the carried value is negative. *)
Lemma find_root_source_chunk_of_ones (x : list float) (prev_value : float) :
  find_root (cfg := source_config) x (replicate (Z.to_nat 200000) 1%float)
    prev_value = [].
Proof.
  apply find_root_constant_sign. change (@CHUNKSIZE source_config) with 200000.
  intros i Hi. unfold load. by rewrite !lookup_total_replicate_2 by lia.
Qed.

(** X1.  What [find_root] prints does not depend on the carried value at
    all. *)
Lemma find_root_ignores_prev_value {cfg : Config} (x y : list float)
    (prev_value prev_value' : float) :
  find_root x y prev_value = find_root x y prev_value'.
Proof.
  unfold find_root, for_lt.
  destruct (Z.to_nat CHUNKSIZE) as [|n]; [done|]. simpl.
  by rewrite !(proj2 (find_root_never_reports_first_sample _ _ _)).
Qed.

(** C3, where the code departs from it.  In the chunk [y = [1; 1; 1; 1]]
    entered with the carried value -1, the sign of the first sample differs
    from the sign of the carried value and no sample before it has been
    reported, yet [find_root] prints nothing at index 0 (and nothing at
    all). *)
Theorem find_root_misses_crossing_at_first_sample :
  sign (load [1; 1; 1; 1]%float 0) ≠ sign (-1)%float /\
  ¬ reported_at (cfg := example_config)
      [0; 1; 2; 3]%float [1; 1; 1; 1]%float (-1) 0 /\
  find_root (cfg := example_config)
    [0; 1; 2; 3]%float [1; 1; 1; 1]%float (-1) = [].
Proof.
  split; [by vm_compute|]. split; [|reflexivity].
  apply find_root_never_reports_first_sample.
Qed.

(** ** Decode failures in the driver *)

Lemma aborted_unique code t pre sc nchunk dsize post :
  aborted code t ->
  t = pre ++ EvDecompress sc nchunk dsize :: post -> dsize < 0 ->
  code = dsize /\ post = [EvDecompressionError dsize] /\ Forall ok_event pre.
Proof.
  intros (c & sc' & n' & -> & Hc & Hneg) Heq Hd.
  revert pre Heq. induction Hc as [|a c Ha Hc IH]; intros pre Heq.
  - destruct pre as [|e1 [|e2 pre]]; simplify_eq/=; [done|].
    by destruct pre.
  - destruct pre as [|e pre]; simplify_eq/=; [lia|].
    destruct (IH pre) as (-> & -> & Hpre); [done|]. by repeat constructor.
Qed.

Lemma ok_trace_no_failure t pre sc nchunk dsize post :
  Forall ok_event t ->
  t = pre ++ EvDecompress sc nchunk dsize :: post -> ¬ dsize < 0.
Proof.
  intros Ht -> Hd. apply Forall_app in Ht as [_ Ht].
  apply Forall_cons in Ht as [Ht _]. simpl in Ht. lia.
Qed.

Section Failures.
Context {cfg : Config} {lib : Blosc2}.

Lemma fill_phase_ok st :
  Forall ok_event (trace st) -> Forall ok_event (trace (fill_phase st)).
Proof.
  intros Hst. unfold fill_phase, for_lt.
  apply (for_from_ind fill_body (fun _ st => Forall ok_event (trace st)));
    [|done].
  intros i s _ Hs. simpl. apply Forall_app. split; [done|].
  by repeat constructor.
Qed.

Lemma transform_body_ok nchunk st :
  Forall ok_event (trace st) ->
  match transform_body nchunk st with
  | Continue st' => Forall ok_event (trace st')
  | Return code st' => aborted code (trace st')
  end.
Proof.
  intros Hst. unfold transform_body.
  destruct (blosc2_decompress_chunk (sc_x st) nchunk (buffer_x st))
    as [dsize bx].
  destruct (Z.ltb_spec dsize 0) as [Hneg|Hpos]; simpl.
  - exists (trace st), SC_X, nchunk. rewrite <- app_assoc. done.
  - rewrite !Forall_app. repeat split; try done; by repeat constructor.
Qed.

Lemma scan_body_ok nchunk st :
  Forall ok_event (trace st) ->
  match scan_body nchunk st with
  | Continue st' => Forall ok_event (trace st')
  | Return code st' => aborted code (trace st')
  end.
Proof.
  intros Hst. unfold scan_body.
  destruct (blosc2_decompress_chunk (sc_y st) nchunk (buffer_y st))
    as [dsize by_].
  destruct (Z.ltb_spec dsize 0) as [Hneg|Hpos]; simpl.
  { exists (trace st), SC_Y, nchunk. rewrite <- app_assoc. done. }
  destruct (blosc2_decompress_chunk (sc_x st) nchunk (buffer_x st))
    as [dsize' bx].
  destruct (Z.ltb_spec dsize' 0) as [Hneg'|Hpos']; simpl.
  { exists (trace st ++ [EvDecompress SC_Y nchunk dsize]), SC_X, nchunk.
    rewrite <- app_assoc. split; [done|]. split; [|done].
    apply Forall_app. split; [done|]. by repeat constructor. }
  rewrite !Forall_app. repeat split; try done; try by repeat constructor.
  apply Forall_fmap, Forall_true. done.
Qed.

(** A run either returns 0 with no failure in its trace, or returns the
    negative size of the one failed decompression that ends its trace. *)
Lemma compute_vectors_outcome :
  (compute_vectors.1 = 0 /\ Forall ok_event (trace compute_vectors.2)) \/
  aborted compute_vectors.1 (trace compute_vectors.2).
Proof.
  unfold compute_vectors.
  pose proof (for_from_ret_ind transform_body
    (fun _ st => Forall ok_event (trace st))
    (fun code st => aborted code (trace st))
    (Z.to_nat NCHUNKS) 0 (fun i s _ => transform_body_ok i s)
    (fill_phase initial)) as Ht.
  fold (for_lt_ret NCHUNKS transform_body (fill_phase initial)) in Ht.
  fold (transform_phase (fill_phase initial)) in Ht.
  destruct (transform_phase (fill_phase initial)) as [st|code st]; simpl.
  - pose proof (for_from_ret_ind scan_body
      (fun _ st => Forall ok_event (trace st))
      (fun code st => aborted code (trace st))
      (Z.to_nat NCHUNKS) 0 (fun i s _ => scan_body_ok i s)
      (scan_init st)) as Hs.
    fold (for_lt_ret NCHUNKS scan_body (scan_init st)) in Hs.
    fold (scan_phase st) in Hs.
    destruct (scan_phase st) as [st'|code' st']; simpl.
    + left. split; [done|]. apply Hs, Ht. apply fill_phase_ok. constructor.
    + right. apply Hs, Ht. apply fill_phase_ok. constructor.
  - right. apply Ht. apply fill_phase_ok. constructor.
Qed.

(** C7.  If some call of [blosc2_decompress_chunk] in a run, on either
    super-chunk and in either the transform loop or the scan loop, returned a
    negative value [dsize], then [compute_vectors] returns [dsize], and the
    only thing the run did after that call was to print the error message:
    no chunk was appended, decompressed or scanned afterwards.  No call
    before it had failed. *)
Theorem decode_failure_aborts_run
    (pre post : list event) (sc : container) (nchunk dsize : Z) :
  trace compute_vectors.2 = pre ++ EvDecompress sc nchunk dsize :: post ->
  dsize < 0 ->
  compute_vectors.1 = dsize /\
  post = [EvDecompressionError dsize] /\
  Forall ok_event pre.
Proof.
  intros Htrace Hneg.
  destruct compute_vectors_outcome as [[_ Hok]|Hab].
  - by destruct (ok_trace_no_failure _ _ _ _ _ _ Hok Htrace).
  - by apply (aborted_unique _ _ _ _ _ _ _ Hab Htrace).
Qed.
End Failures.

(** A run of two one-element chunks in which [x] chunk 1 does not decode:
    the transform loop stops at its second iteration. *)
Lemma decode_failure_aborts_run_witness :
  (compute_vectors (cfg := tiny_config)
     (lib := mem_blosc2 (fun nchunk => nchunk =? 1))).1 = -1 /\
  [EvDecompressionError (-1)] = [EvDecompressionError (-1)] /\
  Forall ok_event
    [EvAppend SC_X [0%float]; EvAppend SC_X [5%float];
     EvDecompress SC_X 0 8; EvAppend SC_Y [poly 0]].
Proof.
  apply (decode_failure_aborts_run (cfg := tiny_config)
           (lib := mem_blosc2 (fun nchunk => nchunk =? 1))
           [EvAppend SC_X [0%float]; EvAppend SC_X [5%float];
            EvDecompress SC_X 0 8; EvAppend SC_Y [poly 0]]
           [EvDecompressionError (-1)] SC_X 1 (-1)).
  - vm_compute. reflexivity.
  - lia.
Defined.

(** ** The value the scan starts from *)

Section Seed.
Context {cfg : Config} {lib : Blosc2}.

Lemma transform_body_continue nchunk st st' :
  transform_body nchunk st = Continue st' ->
  let r := blosc2_decompress_chunk (sc_x st) nchunk (buffer_x st) in
  0 <= r.1 /\
  buffer_x st' = r.2 /\
  buffer_y st' = process_data r.2 (buffer_y st) /\
  sc_x st' = sc_x st /\
  sc_y st' = blosc2_append_buffer (sc_y st) (buffer_y st').
Proof.
  unfold transform_body.
  destruct (blosc2_decompress_chunk (sc_x st) nchunk (buffer_x st))
    as [dsize bx].
  destruct (Z.ltb_spec dsize 0) as [Hneg|Hpos]; simpl; [done|].
  intros [= <-]. simpl. done.
Qed.

Lemma transform_body_transformed sc k st :
  0 <= k -> transformed sc k st ->
  match transform_body k st with
  | Continue st' => transformed sc (k + 1) st'
  | Return _ _ => True
  end.
Proof.
  intros Hk (Hsc & Hlen & _).
  destruct (transform_body k st) as [st'|] eqn:Hbody; [|done].
  apply transform_body_continue in Hbody as (_ & Hbx & Hby & Hscx & _).
  split; [congruence|]. split; [by rewrite Hby, process_data_length|].
  intros _. split.
  - exists (buffer_x st). rewrite Hbx, Hsc. do 3 f_equal. lia.
  - intros i Hi. rewrite Hby, Hbx. by apply process_data_load.
Qed.

(** The scan is seeded with [buffer_y[0]] as the transform loop left it:
    the polynomial of the first sample of the last [x] chunk read back. *)
Lemma scan_seed_from_last_chunk st st' :
  1 <= NCHUNKS -> 1 <= CHUNKSIZE ->
  length (buffer_y st) = Z.to_nat CHUNKSIZE ->
  transform_phase st = Continue st' ->
  exists dest,
    buffer_x st' = (blosc2_decompress_chunk (sc_x st) (NCHUNKS - 1) dest).2 /\
    prev_value (scan_init st') = poly (load (buffer_x st') 0).
Proof.
  intros Hn Hc Hlen Hrun.
  pose proof (for_from_ret_ind transform_body (transformed (sc_x st))
    (fun _ _ => True) (Z.to_nat NCHUNKS) 0
    (fun i s Hi => transform_body_transformed (sc_x st) i s (proj1 Hi)) st)
    as Hinv.
  fold (for_lt_ret NCHUNKS transform_body st) in Hinv.
  fold (transform_phase st) in Hinv. rewrite Hrun in Hinv.
  destruct Hinv as (_ & _ & Hlast); [by split|].
  destruct Hlast as [[dest Hdest] Hpoly]; [lia|].
  exists dest. split.
  - rewrite Hdest. do 3 f_equal. lia.
  - simpl. apply Hpoly. lia.
Qed.
End Seed.

(** ** A run over the reference super-chunk *)

Section LosslessRun.
Context {cfg : Config}.
Hypothesis nchunks_pos : 1 <= NCHUNKS.
Hypothesis chunksize_pos : 1 <= CHUNKSIZE.
Hypothesis total_in_range : Int.in_range (NCHUNKS * CHUNKSIZE).

Lemma fill_body_filled k st :
  0 <= k < NCHUNKS -> filled k st -> filled (k + 1) (fill_body k st).
Proof.
  intros Hk (Hbx & Hby & Hlen & Hsamples & Hscy).
  unfold filled. simpl. split_and!; try done.
  - by rewrite fill_buffer_length.
  - rewrite length_app. simpl. lia.
  - intros n c [[Hn Hc]|[Hn <-]]%lookup_snoc_Some; [by apply Hsamples|].
    split; [by rewrite fill_buffer_length|].
    intros i Hi. rewrite fill_buffer_load by done. do 2 f_equal. lia.
Qed.

Lemma fill_phase_filled : filled NCHUNKS (fill_phase (lib := lossless) initial).
Proof.
  unfold fill_phase, for_lt.
  replace NCHUNKS with (0 + Z.of_nat (Z.to_nat NCHUNKS)) at 1 by lia.
  apply (for_from_ind fill_body filled).
  - intros i s Hi. apply fill_body_filled. lia.
  - unfold filled. simpl. split_and!; try done; apply length_replicate.
Qed.

(** Reading a chunk back from the reference super-chunk. *)
Lemma lossless_decompress (chunks : list (list float)) (n : nat)
    (c dest : list float) :
  chunks !! n = Some c ->
  blosc2_decompress_chunk (Blosc2 := lossless) chunks (Z.of_nat n) dest =
    (8 * Z.of_nat (length c), c).
Proof.
  intros Hc. change (blosc2_decompress_chunk (Blosc2 := lossless))
    with (mem_decompress (fun _ => false)).
  unfold mem_decompress.
  rewrite (proj2 (Z.ltb_ge (Z.of_nat n) 0)) by lia.
  rewrite Nat2Z.id, Hc. done.
Qed.

Lemma transform_body_computed sc k st :
  Z.of_nat (length sc) = NCHUNKS -> holds_samples sc ->
  0 <= k < NCHUNKS -> computed sc k st ->
  match transform_body k st with
  | Continue st' => computed sc (k + 1) st'
  | Return _ _ => False
  end.
Proof.
  intros Hlen Hsamples Hk (Hsc & Hby & Hscy & Hpoly & _).
  destruct (lookup_lt_is_Some_2 sc (Z.to_nat k)) as [c Hc]; [lia|].
  destruct (Hsamples _ _ Hc) as [Hclen Hcval].
  pose proof (lossless_decompress sc _ c (buffer_x st) Hc) as Hdec.
  rewrite Z2Nat.id in Hdec by lia.
  unfold transform_body. rewrite Hsc, Hdec.
  rewrite (proj2 (Z.ltb_ge _ _)) by lia. simpl.
  assert (Hval : forall i, 0 <= i < CHUNKSIZE ->
            load (process_data c (buffer_y st)) i =
            poly (sample_at (k * CHUNKSIZE + i))).
  { intros i Hi. rewrite process_data_load by done. rewrite Hcval by done.
    do 3 f_equal. lia. }
  unfold computed. simpl. split_and!; try done.
  - by rewrite process_data_length.
  - rewrite length_app. simpl. lia.
  - intros n c' [[Hn Hc']|[Hn <-]]%lookup_snoc_Some; [by apply Hpoly|].
    intros i Hi. rewrite Hval by done. do 3 f_equal. lia.
  - intros _ i Hi. rewrite Hval by done. do 3 f_equal. lia.
Qed.

Lemma computed_initially st :
  filled NCHUNKS st -> computed (sc_x st) 0 st.
Proof.
  intros (Hbx & Hby & Hlen & Hsamples & Hscy).
  unfold computed. rewrite Hscy. split_and!; done.
Qed.

(** Over the reference super-chunk the transform loop runs to its end.  The
    scan is then seeded with the polynomial of the first sample of the last
    chunk, while what it reads back as the first [y] chunk starts with the
    polynomial of the first sample of the first chunk. *)
Lemma lossless_scan_seed :
  exists st,
    transform_phase (lib := lossless) (fill_phase initial) = Continue st /\
    prev_value (scan_init st) =
      poly (sample_at ((NCHUNKS - 1) * CHUNKSIZE)) /\
    let first_read :=
      blosc2_decompress_chunk (Blosc2 := lossless) (sc_y st) 0 (buffer_y st) in
    0 <= first_read.1 /\ load first_read.2 0 = poly (sample_at 0).
Proof.
  pose proof fill_phase_filled as Hfilled.
  set (st0 := fill_phase (lib := lossless) initial) in *.
  pose proof (computed_initially _ Hfilled) as Hinit.
  destruct Hfilled as (Hbx & Hby & Hlen & Hsamples & Hscy).
  assert (Hstep : forall i s, 0 <= i < 0 + Z.of_nat (Z.to_nat NCHUNKS) ->
            computed (sc_x st0) i s ->
            match transform_body i s with
            | Continue s' => computed (sc_x st0) (i + 1) s'
            | Return _ _ => False
            end).
  { intros i s Hi. apply transform_body_computed; [done|done|lia]. }
  pose proof (for_from_ret_ind (transform_body (lib := lossless))
    (computed (sc_x st0)) (fun _ _ => False) (Z.to_nat NCHUNKS) 0
    Hstep st0 Hinit) as Hinv.
  fold (for_lt_ret NCHUNKS (transform_body (lib := lossless)) st0) in Hinv.
  fold (transform_phase st0) in Hinv.
  destruct (transform_phase st0) as [st|] eqn:Hrun; [|done].
  exists st. split; [done|].
  destruct Hinv as (_ & Hylen & Hcount & Hpoly & Hlast).
  split.
  - simpl. rewrite (Hlast ltac:(lia) 0 ltac:(lia)). do 2 f_equal. lia.
  - destruct (lookup_lt_is_Some_2 (sc_y st) 0) as [y0 Hy0]; [lia|].
    pose proof (lossless_decompress _ _ _ (buffer_y st) Hy0) as Hdec.
    change (Z.of_nat 0) with 0 in Hdec. rewrite Hdec. simpl.
    split; [lia|]. by rewrite (Hpoly _ _ Hy0 0) by lia.
Qed.
End LosslessRun.

(** C2, where the code departs from it.  In the program as it is
    ([NCHUNKS = 500], [CHUNKSIZE = 200000]), run over the reference
    super-chunk, the transform loop completes and [prev_value] is then set
    from [buffer_y[0]], which still holds the first sample of the last
    chunk computed: the polynomial at global index 499 * 200000, a positive
    number.  The first sample of the first [y] chunk, as the scan reads it
    back, is the polynomial at global index 0, a negative number. *)
Theorem scan_seed_is_first_sample_of_last_chunk :
  let _ : Config := source_config in
  let _ : Blosc2 := lossless in
  exists st,
    transform_phase (fill_phase initial) = Continue st /\
    prev_value (scan_init st) = poly (sample_at (499 * 200000)) /\
    sign (prev_value (scan_init st)) = 1 /\
    let first_read := blosc2_decompress_chunk (sc_y st) 0 (buffer_y st) in
    0 <= first_read.1 /\
    load first_read.2 0 = poly (sample_at 0) /\
    sign (load first_read.2 0) = -1.
Proof.
  destruct (lossless_scan_seed (cfg := source_config))
    as (st & Hrun & Hseed & Hok & Hfirst); [done|done|by vm_compute|].
  exists st. split; [done|]. split; [done|]. split; [by rewrite Hseed|].
  split; [done|]. split; [done|]. by rewrite Hfirst.
Qed.

(** ** Sign changes at chunk boundaries *)

Lemma reported_roots_app t1 t2 :
  reported_roots (t1 ++ t2) = reported_roots t1 ++ reported_roots t2.
Proof. apply omap_app. Qed.

Section Boundaries.
Context {cfg : Config} {lib : Blosc2}.

Lemma scan_body_one_sign nchunk st :
  one_sign_per_chunk (sc_y st) ->
  match scan_body nchunk st with
  | Continue st' | Return _ st' =>
      sc_y st' = sc_y st /\
      reported_roots (trace st') = reported_roots (trace st)
  end.
Proof.
  intros Hone. unfold scan_body.
  specialize (Hone nchunk (buffer_y st)). simpl in Hone.
  destruct (blosc2_decompress_chunk (sc_y st) nchunk (buffer_y st))
    as [dsize by_].
  destruct (dsize <? 0); simpl.
  { split; [done|]. rewrite !reported_roots_app. simpl.
    by rewrite !app_nil_r. }
  destruct (blosc2_decompress_chunk (sc_x st) nchunk (buffer_x st))
    as [dsize' bx].
  destruct (dsize' <? 0); simpl.
  { split; [done|]. rewrite !reported_roots_app. simpl.
    by rewrite !app_nil_r. }
  split; [done|]. rewrite !reported_roots_app. simpl.
  unfold roots. rewrite find_root_constant_sign by done. simpl.
  by rewrite !app_nil_r.
Qed.

(** Then the scan prints no root at all, whatever the signs of the chunks
    are: a sign change between the last sample of one chunk and the first
    sample of the next goes unreported. *)
Lemma scan_phase_one_sign st :
  one_sign_per_chunk (sc_y st) ->
  match scan_phase st with
  | Continue st' | Return _ st' =>
      reported_roots (trace st') = reported_roots (trace st)
  end.
Proof.
  intros Hone.
  assert (Hstep : forall i s, 0 <= i < 0 + Z.of_nat (Z.to_nat NCHUNKS) ->
    sc_y s = sc_y st /\ reported_roots (trace s) = reported_roots (trace st) ->
    match scan_body i s with
    | Continue s' =>
        sc_y s' = sc_y st /\
        reported_roots (trace s') = reported_roots (trace st)
    | Return _ s' => reported_roots (trace s') = reported_roots (trace st)
    end).
  { intros i s _ [Hsc Htr].
    assert (Hone' : one_sign_per_chunk (sc_y s)) by (by rewrite Hsc).
    pose proof (scan_body_one_sign i s Hone') as Hb.
    destruct (scan_body i s); destruct Hb; split_and?; congruence. }
  pose proof (for_from_ret_ind scan_body _ _ _ _ Hstep (scan_init st)) as Hind.
  unfold scan_phase, for_lt_ret.
  destruct (for_from_ret _ _ _ _); by destruct Hind.
Qed.
End Boundaries.

(** C1, where the code departs from it.  The scan of [boundary_crossing],
    a sequence whose one sign change lies between chunk 0 and chunk 1, reads
    both chunks of both vectors back and prints no root: the crossing at
    sample 0 of chunk 1 is seen against the carried value -1, but
    [last_root_idx] has just been reset to -1, which is [i - 1] there. *)
Theorem scan_misses_crossing_at_chunk_boundary :
  exists st,
    scan_phase (cfg := example_config) boundary_crossing = Continue st /\
    trace st =
      [EvDecompress SC_Y 0 32; EvDecompress SC_X 0 32;
       EvDecompress SC_Y 1 32; EvDecompress SC_X 1 32] /\
    reported_roots (trace st) = [] /\
    find_root (cfg := example_config)
      [4; 5; 6; 7]%float [1; 1; 1; 1]%float (-1) = [].
Proof.
  eexists. split; [vm_compute; reflexivity|]. simpl. done.
Qed.

(** ** The order and the number of the reports of [find_root] *)

Lemma StronglySorted_snoc_lt (l : list Z) (k : Z) :
  StronglySorted Z.lt l -> (forall j, j ∈ l -> j < k) ->
  StronglySorted Z.lt (l ++ [k]).
Proof.
  induction 1 as [|a l Hl IH Ha]; intros Hlt; simpl.
  - repeat constructor.
  - constructor.
    + apply IH. intros j Hj. apply Hlt. by right.
    + apply Forall_app. split; [done|].
      constructor; [|constructor]. apply Hlt. by left.
Qed.

Section FindRootOrder.
Context {cfg : Config} (x y : list float) (prev_value : float).

Lemma scan_order_step k s :
  scan_order k s -> scan_order (k + 1) (find_root_step x y k s).
Proof.
  intros [Hlt Hsorted Hbelow Hcount].
  destruct (decide (fires y k s)) as [Hf|Hf].
  - rewrite find_root_step_fires by done. destruct Hf as [_ Hguard].
    split; simpl; rewrite ?fmap_app, ?length_app; simpl.
    + lia.
    + apply StronglySorted_snoc_lt; [done|].
      intros j Hj. apply Hbelow in Hj. lia.
    + intros j [Hj|Hj]%elem_of_app.
      * apply Hbelow in Hj. lia.
      * apply list_elem_of_singleton in Hj. lia.
    + lia.
  - rewrite find_root_step_quiet by done. split; simpl; try done. lia.
Qed.

Lemma find_root_order :
  scan_order (Z.of_nat (Z.to_nat CHUNKSIZE))
    (for_lt CHUNKSIZE (find_root_step x y) (find_root_entry prev_value)).
Proof.
  unfold for_lt.
  apply (for_from_ind (find_root_step x y) scan_order (Z.to_nat CHUNKSIZE) 0).
  - intros i s _. apply scan_order_step.
  - split; simpl; try done; try lia. constructor.
    intros j Hj. by apply elem_of_nil in Hj.
Qed.

(** X2.  The indices at which [find_root] prints are in strictly increasing
    order: the roots come out in the order of the samples and no index is
    printed twice. *)
Theorem find_root_reports_in_increasing_order :
  StronglySorted Z.lt (find_root x y prev_value).*1.
Proof. unfold find_root. apply find_root_order. Qed.

(** X3.  [find_root] prints at most [CHUNKSIZE / 2] roots per chunk. *)
Theorem find_root_reports_at_most_half :
  2 * Z.of_nat (length (find_root x y prev_value)) <= Z.max 0 CHUNKSIZE.
Proof.
  unfold find_root. destruct find_root_order as [Hlt _ _ Hcount]. lia.
Qed.

(** X4.  Every pair [(i, v)] that [find_root] prints has [1 <= i < CHUNKSIZE]
    and [v = x[i]]. *)
Theorem find_root_prints_x_at_reported_index (i : Z) (v : float) :
  (i, v) ∈ find_root x y prev_value ->
  1 <= i < CHUNKSIZE /\ v = load x i.
Proof.
  intros Hin. split; [|by apply (find_root_value _ _ _ _ _ Hin)].
  apply (reported_at_range x y prev_value). unfold reported_at.
  apply list_elem_of_fmap. by exists (i, v).
Qed.
End FindRootOrder.

Lemma find_root_prints_x_at_reported_index_witness :
  1 <= 2 < @CHUNKSIZE example_config /\
  2%float = load [0; 1; 2; 3]%float 2.
Proof.
  apply (find_root_prints_x_at_reported_index (cfg := example_config)
           [0; 1; 2; 3]%float [-1; -1; 1; 1]%float (-1) 2 2%float).
  vm_compute. apply list_elem_of_here.
Defined.

(** ** [find_root] sees only where neighbouring samples differ in sign *)

Lemma sign_opp v : sign (- v) = - sign v.
Proof.
  unfold sign, Double.gt, Double.lt.
  rewrite !FloatAxioms.ltb_spec, FloatAxioms.opp_spec.
  change (Prim2SF 0) with (SpecFloat.S754_zero false).
  by destruct (Prim2SF v) as [[]|[]| |[] m e].
Qed.

Lemma sign_load_opp (y : list float) i :
  sign (load (PrimFloat.opp <$> y) i) = - sign (load y i).
Proof.
  unfold load.
  rewrite (list_lookup_total_alt (PrimFloat.opp <$> y)).
  rewrite (list_lookup_total_alt y), list_lookup_fmap.
  destruct (y !! Z.to_nat i); simpl; [apply sign_opp|done].
Qed.

Section FindRootSim.
Context {cfg : Config} (x y y' : list float).
Hypothesis same_changes : forall i, 1 <= i < CHUNKSIZE ->
  sign (load y' i) ≠ sign (load y' (i - 1)) <->
  sign (load y i) ≠ sign (load y (i - 1)).

Lemma scan_sim_step k s s' :
  0 <= k < CHUNKSIZE -> scan_sim y y' k s s' ->
  scan_sim y y' (k + 1) (find_root_step x y k s) (find_root_step x y' k s').
Proof.
  intros Hk [Hlast Hprinted Hpv Hfirst].
  assert (Hfires : fires y' k s' <-> fires y k s).
  { unfold fires. rewrite Hlast. destruct (decide (k = 0)) as [->|Hne].
    - rewrite (Hfirst eq_refl). split; intros [_ H]; done.
    - destruct Hpv as [-> ->]; [lia|]. by rewrite same_changes by lia. }
  assert (Hnext : forall z : list float, load z (k + 1 - 1) = load z k).
  { intros z. f_equal. lia. }
  destruct (decide (fires y k s)) as [Hf|Hf].
  - rewrite (find_root_step_fires x y) by done.
    rewrite (find_root_step_fires x y') by (by apply Hfires).
    split; simpl; rewrite ?Hnext; try done; try lia. by rewrite Hprinted.
  - rewrite (find_root_step_quiet x y) by done.
    rewrite (find_root_step_quiet x y') by (by rewrite Hfires).
    split; simpl; rewrite ?Hnext; try done; try lia.
Qed.

Lemma scan_sim_for_from n k s s' :
  0 <= k -> k + Z.of_nat n <= Z.max 0 CHUNKSIZE -> scan_sim y y' k s s' ->
  scan_sim y y' (k + Z.of_nat n)
    (for_from n k (find_root_step x y) s)
    (for_from n k (find_root_step x y') s').
Proof.
  revert k s s'. induction n as [|n IH]; intros k s s' Hk Hn Hsim; simpl.
  - by rewrite Z.add_0_r.
  - replace (k + Z.of_nat (S n)) with (k + 1 + Z.of_nat n) by lia.
    apply IH; [lia|lia|]. apply scan_sim_step; [lia|done].
Qed.

Lemma find_root_sim prev_value prev_value' :
  find_root x y' prev_value' = find_root x y prev_value.
Proof.
  unfold find_root, for_lt.
  apply (scan_sim_for_from (Z.to_nat CHUNKSIZE) 0); [done|lia|].
  split; simpl; try done; lia.
Qed.
End FindRootSim.

(** X5.  What [find_root] prints depends on [y] and on the carried value only
    through the places where two neighbouring samples of the chunk differ
    in sign: two chunks with the same such places give the same output. *)
Theorem find_root_depends_on_sign_changes {cfg : Config}
    (x y y' : list float) (prev_value prev_value' : float) :
  (forall i, 1 <= i < CHUNKSIZE ->
     sign (load y' i) ≠ sign (load y' (i - 1)) <->
     sign (load y i) ≠ sign (load y (i - 1))) ->
  find_root x y' prev_value' = find_root x y prev_value.
Proof. intros H. by apply find_root_sim. Qed.

Lemma find_root_depends_on_sign_changes_witness :
  find_root (cfg := example_config)
    [0; 1; 2; 3]%float [5; 0.25; -3; -8]%float 4 =
  find_root (cfg := example_config)
    [0; 1; 2; 3]%float [-1; -2; 1; 1]%float (-1).
Proof.
  apply (find_root_depends_on_sign_changes (cfg := example_config)
           [0; 1; 2; 3]%float [-1; -2; 1; 1]%float [5; 0.25; -3; -8]%float
           (-1) 4).
  intros i Hi. simpl in Hi.
  assert (i = 1 \/ i = 2 \/ i = 3) as [->|[->| ->]] by lia; by vm_compute.
Defined.

(** X6.  Negating every sample of the chunk, and the carried value, leaves
    the reports as they are. *)
Theorem find_root_of_negated_samples {cfg : Config}
    (x y : list float) (prev_value : float) :
  find_root x (PrimFloat.opp <$> y) (- prev_value) = find_root x y prev_value.
Proof.
  apply find_root_sim. intros i _. rewrite !sign_load_opp. lia.
Qed.

(** ** What the two store loops leave alone *)

(** X7.  [fill_buffer] and [process_data] keep the length of the buffer they
    write, and leave every slot from [CHUNKSIZE] on as it was. *)
Theorem store_loops_write_first_chunksize_slots {cfg : Config}
    (x y : list float) (nchunk : Z) (j : nat) :
  (Z.to_nat CHUNKSIZE <= j)%nat ->
  length (fill_buffer y nchunk) = length y /\
  fill_buffer y nchunk !! j = y !! j /\
  length (process_data x y) = length y /\
  process_data x y !! j = y !! j.
Proof.
  intros Hj. split_and!.
  - unfold fill_buffer, for_lt. apply (for_from_store_length
      (fun i => (incx *
         Double.of_int (Int.add (Int.mul nchunk CHUNKSIZE) i))%float)).
  - unfold fill_buffer, for_lt. rewrite (for_from_store_lookup
      (fun i => (incx *
         Double.of_int (Int.add (Int.mul nchunk CHUNKSIZE) i))%float))
      by done.
    by rewrite decide_False by lia.
  - apply process_data_length.
  - unfold process_data, for_lt.
    rewrite (for_from_store_lookup (fun i => poly (load x i))) by done.
    by rewrite decide_False by lia.
Qed.

Lemma store_loops_write_first_chunksize_slots_witness :
  length (fill_buffer (cfg := example_config)
            [9; 9; 9; 9; 7; 7]%float 1) = length [9; 9; 9; 9; 7; 7]%float /\
  fill_buffer (cfg := example_config) [9; 9; 9; 9; 7; 7]%float 1 !! 5%nat =
    [9; 9; 9; 9; 7; 7]%float !! 5%nat /\
  length (process_data (cfg := example_config)
            [0; 1; 2; 3]%float [9; 9; 9; 9; 7; 7]%float) =
    length [9; 9; 9; 9; 7; 7]%float /\
  process_data (cfg := example_config)
    [0; 1; 2; 3]%float [9; 9; 9; 9; 7; 7]%float !! 5%nat =
    [9; 9; 9; 9; 7; 7]%float !! 5%nat.
Proof.
  apply (store_loops_write_first_chunksize_slots (cfg := example_config)
           [0; 1; 2; 3]%float [9; 9; 9; 9; 7; 7]%float 1 5).
  simpl. lia.
Defined.

(** ** The reporting rule of [find_root], from the second sample on *)

(** X8.  For [1 <= i < CHUNKSIZE], [find_root] prints at index [i] exactly
    when the sign of [y[i]] differs from the sign of [y[i - 1]] and it did
    not print at index [i - 1]. *)
Theorem find_root_reports_from_second_sample {cfg : Config}
    (x y : list float) (prev_value : float) (i : Z) :
  1 <= i < CHUNKSIZE ->
  reported_at x y prev_value i <->
  sign (load y i) ≠ sign (load y (i - 1)) /\
  ¬ reported_at x y prev_value (i - 1).
Proof. apply reported_at_iff. Qed.

Lemma find_root_reports_from_second_sample_witness :
  reported_at (cfg := example_config)
    [0; 1; 2; 3]%float [-1; 1; -1; 1]%float (-1) 3 <->
  sign (load [-1; 1; -1; 1]%float 3) ≠
    sign (load [-1; 1; -1; 1]%float (3 - 1)) /\
  ¬ reported_at (cfg := example_config)
      [0; 1; 2; 3]%float [-1; 1; -1; 1]%float (-1) (3 - 1).
Proof.
  apply (find_root_reports_from_second_sample (cfg := example_config)
           [0; 1; 2; 3]%float [-1; 1; -1; 1]%float (-1) 3).
  simpl. lia.
Defined.

(** X9.  A chunk in which no two neighbouring samples differ in sign makes
    [find_root] print nothing, whatever the carried value is. *)
Theorem find_root_silent_without_sign_change {cfg : Config}
    (x y : list float) (prev_value : float) :
  (forall i, 1 <= i < CHUNKSIZE -> sign (load y i) = sign (load y (i - 1))) ->
  find_root x y prev_value = [].
Proof. apply find_root_constant_sign. Qed.

Lemma find_root_silent_without_sign_change_witness :
  find_root (cfg := example_config)
    [0; 1; 2; 3]%float [2; 3; 0.5; 7]%float (-1) = [].
Proof.
  apply (find_root_silent_without_sign_change (cfg := example_config)
           [0; 1; 2; 3]%float [2; 3; 0.5; 7]%float (-1)).
  intros i Hi. simpl in Hi.
  assert (i = 1 \/ i = 2 \/ i = 3) as [->|[->| ->]] by lia; reflexivity.
Defined.

(** ** How a run ends *)

(** X10.  [compute_vectors] returns 0 or a negative value, never a positive
    one.  When it returns 0, no decompression failed and no error message
    was printed; when it returns a negative value, the trace ends with the
    failed decompression that returned that value and its message. *)
Theorem compute_vectors_returns_zero_or_failure {cfg : Config} {lib : Blosc2} :
  compute_vectors.1 = 0 /\ Forall ok_event (trace compute_vectors.2) \/
  compute_vectors.1 < 0 /\ aborted compute_vectors.1 (trace compute_vectors.2).
Proof.
  destruct compute_vectors_outcome as [H|H]; [by left|right].
  split; [|done]. by destruct H as (_ & _ & _ & _ & _ & ?).
Qed.

(** ** The calls a run makes into the library *)

Lemma calls_app t1 t2 : calls (t1 ++ t2) = calls t1 ++ calls t2.
Proof. apply omap_app. Qed.

Lemma calls_roots (l : list float) : calls (EvRoot <$> l) = [].
Proof. induction l as [|v l IH]; [done|]. simpl. exact IH. Qed.

Lemma seqZ_snoc (k : Z) : 0 <= k -> seqZ 0 (k + 1) = seqZ 0 k ++ [k].
Proof.
  intros Hk. rewrite seqZ_app by lia. f_equal.
Qed.

Lemma transform_calls_snoc k :
  0 <= k ->
  transform_calls (k + 1) =
    transform_calls k ++ [CallDecompress SC_X k; CallAppend SC_Y].
Proof.
  intros Hk. unfold transform_calls. rewrite seqZ_snoc by done.
  rewrite bind_app. simpl. by rewrite ?app_nil_r.
Qed.

Lemma scan_calls_snoc k :
  0 <= k ->
  scan_calls (k + 1) =
    scan_calls k ++ [CallDecompress SC_Y k; CallDecompress SC_X k].
Proof.
  intros Hk. unfold scan_calls. rewrite seqZ_snoc by done.
  rewrite bind_app. simpl. by rewrite ?app_nil_r.
Qed.

Lemma transform_calls_prefix k n :
  0 <= k <= n -> transform_calls k `prefix_of` transform_calls n.
Proof.
  intros Hk. unfold transform_calls.
  replace n with (k + (n - k)) by lia. rewrite seqZ_app by lia.
  rewrite bind_app. by apply prefix_app_r.
Qed.

Lemma scan_calls_prefix k n :
  0 <= k <= n -> scan_calls k `prefix_of` scan_calls n.
Proof.
  intros Hk. unfold scan_calls.
  replace n with (k + (n - k)) by lia. rewrite seqZ_app by lia.
  rewrite bind_app. by apply prefix_app_r.
Qed.

Lemma transform_calls_stop_prefix k n stop :
  0 <= k < n ->
  stop `prefix_of` [CallDecompress SC_X k; CallAppend SC_Y] ->
  transform_calls k ++ stop `prefix_of` transform_calls n.
Proof.
  intros Hk Hstop.
  destruct (transform_calls_prefix (k + 1) n) as [rest ->]; [lia|].
  rewrite transform_calls_snoc by lia.
  by apply prefix_app_r, prefix_app.
Qed.

Lemma scan_calls_stop_prefix k n stop :
  0 <= k < n ->
  stop `prefix_of` [CallDecompress SC_Y k; CallDecompress SC_X k] ->
  scan_calls k ++ stop `prefix_of` scan_calls n.
Proof.
  intros Hk Hstop.
  destruct (scan_calls_prefix (k + 1) n) as [rest ->]; [lia|].
  rewrite scan_calls_snoc by lia.
  by apply prefix_app_r, prefix_app.
Qed.

Section Schedule.
Context {cfg : Config} {lib : Blosc2}.

Lemma fill_phase_calls st :
  calls (trace (fill_phase st)) =
    calls (trace st) ++ replicate (Z.to_nat NCHUNKS) (CallAppend SC_X).
Proof.
  unfold fill_phase, for_lt.
  replace (Z.to_nat NCHUNKS) with (Z.to_nat (0 + Z.of_nat (Z.to_nat NCHUNKS)))
    at 2 by lia.
  apply (for_from_ind fill_body
    (fun k s => calls (trace s) =
       calls (trace st) ++ replicate (Z.to_nat k) (CallAppend SC_X))).
  - intros i s Hi Hs. simpl. rewrite calls_app, Hs. simpl.
    rewrite <- app_assoc. f_equal.
    replace (Z.to_nat (i + 1)) with (S (Z.to_nat i)) by lia.
    by rewrite replicate_S_end.
  - by rewrite app_nil_r.
Qed.

(** What has been called on entry to iteration [k] of the transform loop,
    and when the loop returns from it. *)
Lemma transform_body_calls c0 k st :
  0 <= k ->
  calls (trace st) = c0 ++ transform_calls k ->
  match transform_body k st with
  | Continue st' => calls (trace st') = c0 ++ transform_calls (k + 1)
  | Return code st' =>
      code < 0 /\
      calls (trace st') = c0 ++ transform_calls k ++ [CallDecompress SC_X k]
  end.
Proof.
  intros Hk Hst. unfold transform_body.
  destruct (blosc2_decompress_chunk (sc_x st) k (buffer_x st)) as [dsize bx].
  destruct (Z.ltb_spec dsize 0); simpl; rewrite !calls_app, Hst; simpl.
  - split; [done|]. by rewrite app_nil_r, <- app_assoc.
  - rewrite transform_calls_snoc by done. by rewrite <- !app_assoc.
Qed.

Lemma scan_body_calls c0 k st :
  0 <= k ->
  calls (trace st) = c0 ++ scan_calls k ->
  match scan_body k st with
  | Continue st' => calls (trace st') = c0 ++ scan_calls (k + 1)
  | Return code st' =>
      code < 0 /\
      (calls (trace st') = c0 ++ scan_calls k ++ [CallDecompress SC_Y k] \/
       calls (trace st') =
         c0 ++ scan_calls k ++ [CallDecompress SC_Y k; CallDecompress SC_X k])
  end.
Proof.
  intros Hk Hst. unfold scan_body.
  destruct (blosc2_decompress_chunk (sc_y st) k (buffer_y st)) as [dsize by_].
  destruct (Z.ltb_spec dsize 0); simpl.
  { split; [done|]. left. rewrite !calls_app, Hst. simpl.
    by rewrite app_nil_r, <- app_assoc. }
  destruct (blosc2_decompress_chunk (sc_x st) k (buffer_x st)) as [dsize' bx].
  destruct (Z.ltb_spec dsize' 0); simpl.
  { split; [done|]. right. rewrite !calls_app, Hst. simpl.
    by rewrite app_nil_r, <- !app_assoc. }
  rewrite !calls_app, Hst, calls_roots. simpl.
  rewrite scan_calls_snoc by done. by rewrite app_nil_r, <- !app_assoc.
Qed.

Lemma transform_calls_to_nat n :
  transform_calls (Z.of_nat (Z.to_nat n)) = transform_calls n.
Proof. unfold transform_calls, seqZ. by rewrite Nat2Z.id. Qed.

Lemma scan_calls_to_nat n :
  scan_calls (Z.of_nat (Z.to_nat n)) = scan_calls n.
Proof. unfold scan_calls, seqZ. by rewrite Nat2Z.id. Qed.

Lemma transform_phase_calls c0 st :
  calls (trace st) = c0 ->
  match transform_phase st with
  | Continue st' => calls (trace st') = c0 ++ transform_calls NCHUNKS
  | Return code st' =>
      code < 0 /\
      exists k, 0 <= k < NCHUNKS /\
        calls (trace st') = c0 ++ transform_calls k ++ [CallDecompress SC_X k]
  end.
Proof.
  intros Hst.
  pose proof (for_from_ret_ind transform_body
    (fun k s => calls (trace s) = c0 ++ transform_calls k)
    (fun code s => code < 0 /\
       exists k, 0 <= k < NCHUNKS /\
         calls (trace s) = c0 ++ transform_calls k ++ [CallDecompress SC_X k])
    (Z.to_nat NCHUNKS) 0) as Hind.
  unfold transform_phase, for_lt_ret.
  rewrite Z.add_0_l, transform_calls_to_nat in Hind. apply Hind.
  - intros i s Hi Hs.
    pose proof (transform_body_calls c0 i s (proj1 Hi) Hs) as Hb.
    destruct (transform_body i s); [done|].
    destruct Hb as [Hneg Hc]. split; [done|]. exists i. split; [lia|done].
  - by rewrite Hst, app_nil_r.
Qed.

Lemma scan_phase_calls c0 st :
  calls (trace st) = c0 ->
  match scan_phase st with
  | Continue st' => calls (trace st') = c0 ++ scan_calls NCHUNKS
  | Return code st' =>
      code < 0 /\
      exists k, 0 <= k < NCHUNKS /\
        (calls (trace st') = c0 ++ scan_calls k ++ [CallDecompress SC_Y k] \/
         calls (trace st') =
           c0 ++ scan_calls k ++
             [CallDecompress SC_Y k; CallDecompress SC_X k])
  end.
Proof.
  intros Hst.
  pose proof (for_from_ret_ind scan_body
    (fun k s => calls (trace s) = c0 ++ scan_calls k)
    (fun code s => code < 0 /\
       exists k, 0 <= k < NCHUNKS /\
         (calls (trace s) = c0 ++ scan_calls k ++ [CallDecompress SC_Y k] \/
          calls (trace s) =
            c0 ++ scan_calls k ++
              [CallDecompress SC_Y k; CallDecompress SC_X k]))
    (Z.to_nat NCHUNKS) 0) as Hind.
  unfold scan_phase, for_lt_ret.
  rewrite Z.add_0_l, scan_calls_to_nat in Hind. apply Hind.
  - intros i s Hi Hs.
    pose proof (scan_body_calls c0 i s (proj1 Hi) Hs) as Hb.
    destruct (scan_body i s); [done|].
    destruct Hb as [Hneg Hc]. split; [done|]. exists i. split; [lia|done].
  - simpl. by rewrite Hst, app_nil_r.
Qed.

Lemma compute_vectors_calls :
  calls (trace compute_vectors.2) `prefix_of` schedule NCHUNKS /\
  (compute_vectors.1 = 0 /\
   calls (trace compute_vectors.2) = schedule NCHUNKS \/
   compute_vectors.1 < 0 /\
   exists sc nchunk, 0 <= nchunk < NCHUNKS /\
     last (calls (trace compute_vectors.2)) =
       Some (CallDecompress sc nchunk)).
Proof.
  unfold compute_vectors, schedule.
  pose proof (fill_phase_calls initial) as Hfill. simpl in Hfill.
  pose proof (transform_phase_calls _ _ Hfill) as Ht.
  destruct (transform_phase (fill_phase initial)) as [st|code st]; simpl.
  - pose proof (scan_phase_calls _ _ Ht) as Hs.
    destruct (scan_phase st) as [st'|code' st']; simpl.
    + rewrite Hs, <- app_assoc. split; [done|]. by left.
    + destruct Hs as (Hneg & k & Hk & Hc).
      rewrite <- !app_assoc in Hc. split.
      * destruct Hc as [->| ->]; apply prefix_app, prefix_app,
          scan_calls_stop_prefix; try done.
        by apply prefix_cons, prefix_nil.
      * right. split; [done|].
        destruct Hc as [->| ->].
        -- exists SC_Y, k. split; [done|]. by rewrite !app_assoc, last_snoc.
        -- exists SC_X, k. split; [done|].
           change [CallDecompress SC_Y k; CallDecompress SC_X k]
             with ([CallDecompress SC_Y k] ++ [CallDecompress SC_X k]).
           by rewrite !app_assoc, last_snoc.
  - destruct Ht as (Hneg & k & Hk & Hc). split.
    + rewrite Hc. apply prefix_app, prefix_app_r.
      apply transform_calls_stop_prefix; [done|].
      by apply prefix_cons, prefix_nil.
    + right. split; [done|]. exists SC_X, k. split; [done|].
      by rewrite Hc, !app_assoc, last_snoc.
Qed.

(** X11.  The library is called in a fixed order.  A run that returns 0 has
    made exactly the calls of [schedule NCHUNKS]: every chunk index from 0
    to [NCHUNKS - 1], in increasing order, in each of the three loops.  A
    run that returns a negative code has made an initial part of them, and
    its last call is a read. *)
Theorem compute_vectors_follows_schedule :
  calls (trace compute_vectors.2) `prefix_of` schedule NCHUNKS /\
  (compute_vectors.1 = 0 /\
   calls (trace compute_vectors.2) = schedule NCHUNKS \/
   compute_vectors.1 < 0 /\
   exists sc nchunk, 0 <= nchunk < NCHUNKS /\
     last (calls (trace compute_vectors.2)) =
       Some (CallDecompress sc nchunk)).
Proof. exact compute_vectors_calls. Qed.
End Schedule.

(** ** Reads come after the appends they need *)

Lemma reads_appended_prefix nx ny l r :
  reads_appended nx ny (l ++ r) -> reads_appended nx ny l.
Proof.
  revert nx ny. induction l as [|c l IH]; intros nx ny; simpl; [done|].
  destruct c as [[]|[] n]; simpl; try apply IH.
  - intros [Hn H]. split; [done|]. by apply IH in H.
  - intros [Hn H]. split; [done|]. by apply IH in H.
Qed.

Lemma reads_appended_fill nx ny (m : nat) r :
  reads_appended (nx + Z.of_nat m) ny r ->
  reads_appended nx ny (replicate m (CallAppend SC_X) ++ r).
Proof.
  revert nx. induction m as [|m IH]; intros nx Hr; simpl.
  - by rewrite Z.add_0_r in Hr.
  - apply IH.
    by replace (nx + 1 + Z.of_nat m) with (nx + Z.of_nat (S m)) by lia.
Qed.

Lemma reads_appended_transform nx ny k (m : nat) r :
  0 <= k -> k + Z.of_nat m <= nx ->
  reads_appended nx (ny + Z.of_nat m) r ->
  reads_appended nx ny
    ((seqZ k (Z.of_nat m) ≫=
        (fun nchunk => [CallDecompress SC_X nchunk; CallAppend SC_Y])) ++ r).
Proof.
  revert ny k. induction m as [|m IH]; intros ny k Hk Hm Hr.
  - simpl in *. by rewrite Z.add_0_r in Hr.
  - rewrite seqZ_cons by lia.
    replace (Z.pred (Z.of_nat (S m))) with (Z.of_nat m) by lia.
    rewrite bind_cons, <- app_assoc.
    change (0 <= k < nx /\
            reads_appended nx (ny + 1)
              ((seqZ (Z.succ k) (Z.of_nat m) ≫=
                  (fun nchunk => [CallDecompress SC_X nchunk; CallAppend SC_Y]))
               ++ r)).
    split; [lia|]. apply IH; [lia|lia|].
    by replace (ny + 1 + Z.of_nat m) with (ny + Z.of_nat (S m)) by lia.
Qed.

Lemma reads_appended_scan nx ny k (m : nat) :
  0 <= k -> k + Z.of_nat m <= nx -> k + Z.of_nat m <= ny ->
  reads_appended nx ny
    (seqZ k (Z.of_nat m) ≫=
       (fun nchunk =>
          [CallDecompress SC_Y nchunk; CallDecompress SC_X nchunk])).
Proof.
  revert k. induction m as [|m IH]; intros k Hk Hx Hy; [done|].
  rewrite seqZ_cons by lia.
  replace (Z.pred (Z.of_nat (S m))) with (Z.of_nat m) by lia.
  rewrite bind_cons.
  change (0 <= k < ny /\ 0 <= k < nx /\
          reads_appended nx ny
            (seqZ (Z.succ k) (Z.of_nat m) ≫=
               (fun nchunk =>
                  [CallDecompress SC_Y nchunk; CallDecompress SC_X nchunk]))).
  split; [lia|]. split; [lia|]. apply IH; lia.
Qed.

Lemma reads_appended_schedule n : reads_appended 0 0 (schedule n).
Proof.
  unfold schedule. apply reads_appended_fill.
  unfold transform_calls, scan_calls.
  destruct (decide (0 <= n)) as [Hn|Hn].
  - rewrite <- (Z2Nat.id n) at 2 3 by done.
    apply reads_appended_transform; [done|lia|].
    apply reads_appended_scan; lia.
  - unfold seqZ. replace (Z.to_nat n) with 0%nat by lia. done.
Qed.

(** X12.  A run never asks the library for a chunk it has not appended: every
    read of chunk [nchunk] of a super-chunk comes after more than [nchunk]
    appends to that super-chunk. *)
Theorem compute_vectors_reads_only_appended_chunks
    {cfg : Config} {lib : Blosc2} :
  reads_appended 0 0 (calls (trace compute_vectors.2)).
Proof.
  destruct compute_vectors_calls as [[rest Hrest] _].
  apply (reads_appended_prefix 0 0 _ rest). rewrite <- Hrest.
  apply reads_appended_schedule.
Qed.

(** ** The store loops overwrite the whole buffer *)

Lemma for_lt_store_overwrites (f : Z -> float) hi (b b' : list float) :
  length b = Z.to_nat hi -> length b' = Z.to_nat hi ->
  for_lt hi (fun i b => store b i (f i)) b =
  for_lt hi (fun i b => store b i (f i)) b'.
Proof.
  intros Hb Hb'. unfold for_lt. apply list_eq. intros j.
  rewrite !for_from_store_lookup by done.
  destruct (decide (j < Z.to_nat hi)%nat) as [Hj|Hj].
  - rewrite !decide_True by lia.
    destruct (lookup_lt_is_Some_2 b j) as [v ->]; [lia|].
    destruct (lookup_lt_is_Some_2 b' j) as [v' ->]; [lia|]. done.
  - rewrite !decide_False by lia.
    by rewrite !lookup_ge_None_2 by lia.
Qed.

(** X13.  What [fill_buffer] and [process_data] leave in a buffer of
    [CHUNKSIZE] elements does not depend on what the buffer held before:
    nothing of the previous chunk survives in a reused buffer. *)
Theorem store_loops_overwrite_whole_buffer {cfg : Config}
    (x y y' : list float) (nchunk : Z) :
  length y = Z.to_nat CHUNKSIZE -> length y' = Z.to_nat CHUNKSIZE ->
  fill_buffer y nchunk = fill_buffer y' nchunk /\
  process_data x y = process_data x y'.
Proof.
  intros Hy Hy'. split.
  - by apply (for_lt_store_overwrites (fun i =>
      (incx * Double.of_int (Int.add (Int.mul nchunk CHUNKSIZE) i))%float)).
  - by apply (for_lt_store_overwrites (fun i => poly (load x i))).
Qed.

Lemma store_loops_overwrite_whole_buffer_witness :
  fill_buffer (cfg := example_config) [0; 0; 0; 0]%float 1 =
    fill_buffer (cfg := example_config) [9; 8; 7; 6]%float 1 /\
  process_data (cfg := example_config)
    [0; 1; 2; 3]%float [0; 0; 0; 0]%float =
    process_data (cfg := example_config)
      [0; 1; 2; 3]%float [9; 8; 7; 6]%float.
Proof.
  apply (store_loops_overwrite_whole_buffer (cfg := example_config)
           [0; 1; 2; 3]%float [0; 0; 0; 0]%float [9; 8; 7; 6]%float 1);
    reflexivity.
Defined.

(** ** What a run appends to the [x] super-chunk *)

Lemma appended_x_app t1 t2 :
  appended_x (t1 ++ t2) = appended_x t1 ++ appended_x t2.
Proof. apply omap_app. Qed.

Lemma appended_x_roots (l : list float) : appended_x (EvRoot <$> l) = [].
Proof. induction l as [|v l IH]; [done|]. simpl. exact IH. Qed.

Section AppendedX.
Context {cfg : Config} {lib : Blosc2}.

Lemma transform_phase_appended_x st :
  match transform_phase st with
  | Continue st' | Return _ st' =>
      appended_x (trace st') = appended_x (trace st)
  end.
Proof.
  unfold transform_phase, for_lt_ret.
  pose proof (for_from_ret_ind transform_body
    (fun _ s => appended_x (trace s) = appended_x (trace st))
    (fun _ s => appended_x (trace s) = appended_x (trace st))
    (Z.to_nat NCHUNKS) 0) as Hind.
  apply Hind; [|done]. intros i s _ Hs. unfold transform_body.
  destruct (blosc2_decompress_chunk (sc_x s) i (buffer_x s)) as [dsize bx].
  destruct (dsize <? 0); simpl; rewrite !appended_x_app, Hs; simpl;
    by rewrite !app_nil_r.
Qed.

Lemma scan_phase_appended_x st :
  match scan_phase st with
  | Continue st' | Return _ st' =>
      appended_x (trace st') = appended_x (trace st)
  end.
Proof.
  unfold scan_phase, for_lt_ret.
  pose proof (for_from_ret_ind scan_body
    (fun _ s => appended_x (trace s) = appended_x (trace st))
    (fun _ s => appended_x (trace s) = appended_x (trace st))
    (Z.to_nat NCHUNKS) 0) as Hind.
  apply Hind; [|done]. intros i s _ Hs. unfold scan_body.
  destruct (blosc2_decompress_chunk (sc_y s) i (buffer_y s)) as [dsize by_].
  destruct (dsize <? 0); simpl.
  { rewrite !appended_x_app, Hs. simpl. by rewrite !app_nil_r. }
  destruct (blosc2_decompress_chunk (sc_x s) i (buffer_x s)) as [dsize' bx].
  destruct (dsize' <? 0); simpl;
    rewrite !appended_x_app, ?appended_x_roots, Hs; simpl;
    by rewrite !app_nil_r.
Qed.

Lemma fill_phase_appended_x :
  Int.in_range (NCHUNKS * CHUNKSIZE) ->
  length (appended_x (trace (fill_phase initial))) = Z.to_nat NCHUNKS /\
  holds_samples (appended_x (trace (fill_phase initial))).
Proof.
  intros Hrange. unfold fill_phase, for_lt.
  pose proof (for_from_ind fill_body
    (fun k s =>
       length (buffer_x s) = Z.to_nat CHUNKSIZE /\
       length (appended_x (trace s)) = Z.to_nat k /\
       holds_samples (appended_x (trace s)))
    (Z.to_nat NCHUNKS) 0) as Hind.
  destruct Hind with (s := initial) as (_ & Hlen & Hsamples).
  - intros i s Hi (Hbx & Hlen & Hsamples). simpl.
    rewrite appended_x_app. simpl. split_and!.
    + by rewrite fill_buffer_length.
    + rewrite length_app. simpl. lia.
    + intros n c [[Hn Hc]|[Hn <-]]%lookup_snoc_Some; [by apply Hsamples|].
      split; [by rewrite fill_buffer_length|].
      intros j Hj. rewrite fill_buffer_load by (done || lia).
      do 2 f_equal. lia.
  - simpl. split_and!; [apply length_replicate|done|].
    intros n c Hn. by rewrite lookup_nil in Hn.
  - split; [lia|done].
Qed.

(** X14.  Whatever the library does, a run appends exactly [NCHUNKS] buffers
    to the [x] super-chunk, each of [CHUNKSIZE] elements, and element [i]
    of the [n]-th is the sample at global index [n * CHUNKSIZE + i]. *)
Theorem compute_vectors_appends_all_samples :
  Int.in_range (NCHUNKS * CHUNKSIZE) ->
  length (appended_x (trace compute_vectors.2)) = Z.to_nat NCHUNKS /\
  forall n c, appended_x (trace compute_vectors.2) !! n = Some c ->
    length c = Z.to_nat CHUNKSIZE /\
    forall i, 0 <= i < CHUNKSIZE ->
      load c i = (incx * Double.of_int (Z.of_nat n * CHUNKSIZE + i))%float.
Proof.
  intros Hrange.
  assert (Heq : appended_x (trace compute_vectors.2) =
                appended_x (trace (fill_phase initial))).
  { unfold compute_vectors.
    pose proof (transform_phase_appended_x (fill_phase initial)) as Ht.
    destruct (transform_phase (fill_phase initial)) as [st|code st];
      simpl; [|done].
    pose proof (scan_phase_appended_x st) as Hs.
    destruct (scan_phase st); simpl; congruence. }
  rewrite Heq. apply fill_phase_appended_x. done.
Qed.
End AppendedX.

Lemma compute_vectors_appends_all_samples_witness :
  length (appended_x
            (trace (compute_vectors (cfg := example_config)
                      (lib := lossless)).2)) = Z.to_nat 2 /\
  forall n c,
    appended_x (trace (compute_vectors (cfg := example_config)
                         (lib := lossless)).2) !! n = Some c ->
    length c = Z.to_nat 4 /\
    forall i, 0 <= i < 4 ->
      load c i =
        (incx (cfg := example_config) *
         Double.of_int (Z.of_nat n * 4 + i))%float.
Proof.
  apply (compute_vectors_appends_all_samples (cfg := example_config)
           (lib := lossless)).
  by vm_compute.
Defined.

(** ** The timing helpers *)

Lemma long_sub_diag a : Long.sub a a = 0.
Proof. unfold Long.sub. by rewrite Z.sub_diag. Qed.

(** X15.  Between a timestamp and itself no time has passed: both
    [blosc_elapsed_usecs] and [getseconds] give exactly 0, whatever the
    fields hold. *)
Theorem elapsed_time_of_equal_timestamps (t : timespec) :
  blosc_elapsed_usecs t t = 0%float /\ getseconds t t = 0%float.
Proof.
  unfold getseconds, blosc_elapsed_usecs. rewrite !long_sub_diag. done.
Qed.

(** A quotient by zero is an infinity or a NaN. *)
Lemma div_by_zero_not_finite (a : float) :
  PrimFloat.is_finite (a / 0) = false.
Proof.
  unfold PrimFloat.is_finite, PrimFloat.is_nan, PrimFloat.is_infinity.
  rewrite !FloatAxioms.eqb_spec, FloatAxioms.abs_spec, FloatAxioms.div_spec.
  change (Prim2SF 0) with (SpecFloat.S754_zero false).
  change (Prim2SF infinity) with (SpecFloat.S754_infinity false).
  by destruct (Prim2SF a) as [[]|[]| |[] m e].
Qed.

(** X16.  When the product [niter * nchunks], taken in [size_t], is zero,
    [get_usec_chunk] divides by zero: its result is an infinity or a NaN,
    never a finite number. *)
Theorem get_usec_chunk_of_no_chunks (last current : timespec)
    (niter nchunks : Z) :
  SizeT.mul (SizeT.of_int niter) nchunks = 0 ->
  PrimFloat.is_finite (get_usec_chunk last current niter nchunks) = false.
Proof.
  intros Hzero. unfold get_usec_chunk. rewrite Hzero.
  apply div_by_zero_not_finite.
Qed.

Lemma get_usec_chunk_of_no_chunks_witness :
  PrimFloat.is_finite
    (get_usec_chunk {| tv_sec := 10; tv_nsec := 999999000 |}
       {| tv_sec := 12; tv_nsec := 1000 |} 0 500) = false.
Proof.
  apply (get_usec_chunk_of_no_chunks
           {| tv_sec := 10; tv_nsec := 999999000 |}
           {| tv_sec := 12; tv_nsec := 1000 |} 0 500).
  reflexivity.
Defined.

(** ** [main] *)

(** X17.  [main] returns 0 also when [compute_vectors] fails: the negative
    code is dropped, the failure shows only as the error message in what
    was printed, and [blosc_destroy] is still the last thing called. *)
Theorem main_drops_failure_code {cfg : Config} {lib : Blosc2} :
  compute_vectors.1 < 0 ->
  main.1 = 0 /\
  MainRun (EvDecompressionError compute_vectors.1) ∈ main.2 /\
  last main.2 = Some MainDestroy.
Proof.
  intros Hneg. unfold main. simpl. split; [done|]. split.
  - destruct compute_vectors_outcome as [[H0 _]|(pre & sc & n & Ht & _)];
      [lia|].
    rewrite Ht. do 2 right. apply elem_of_app. left.
    apply list_elem_of_fmap. eexists. split; [done|].
    apply elem_of_app. right. by do 2 constructor.
  - change (last (([MainVersion; MainInit] ++
                    (MainRun <$> trace compute_vectors.2)) ++ [MainDestroy]) =
            Some MainDestroy).
    apply last_snoc.
Qed.

Lemma main_drops_failure_code_witness :
  (main (cfg := tiny_config)
     (lib := mem_blosc2 (fun nchunk => nchunk =? 1))).1 = 0 /\
  MainRun (EvDecompressionError
             (compute_vectors (cfg := tiny_config)
                (lib := mem_blosc2 (fun nchunk => nchunk =? 1))).1) ∈
    (main (cfg := tiny_config)
       (lib := mem_blosc2 (fun nchunk => nchunk =? 1))).2 /\
  last (main (cfg := tiny_config)
          (lib := mem_blosc2 (fun nchunk => nchunk =? 1))).2 =
    Some MainDestroy.
Proof.
  apply (main_drops_failure_code (cfg := tiny_config)
           (lib := mem_blosc2 (fun nchunk => nchunk =? 1))).
  by vm_compute.
Defined.
